(** * A type-erased callable container with small-buffer storage

    Shallow embedding of the three drafts of [function<R(Args...)>] found in
    the repository:

    - [Part000]  : src/unnamed/part_000 (the draft with namespace [details]);
    - [Header1]  : src/function.h, first draft  (lines 1-220);
    - [Header2]  : src/function.h, second draft (lines 220-407).

    C++ objects are modelled by explicit state passing.  A [machine] holds
    the live [function] objects by address and the free store of the payload
    objects created by [new].  Every operation is a computation in the monad
    [M], which distinguishes normal completion, a propagating exception (the
    state reached at the throw is kept) and undefined behaviour.

    Modelling assumptions: [new] always finds memory and returns an address
    that is not in use; a payload's destructor only ends the object's
    lifetime; a payload's call operator is [const] and its answer depends on
    the object's state and the arguments only; reading storage as a type it
    does not hold is undefined behaviour. *)

From stdpp Require Import base numbers option gmap fin_maps fin_sets.

Set Default Proof Using "Type".

(** ** Payload types *)

(** Identity of a concrete payload type [T]. *)
Definition tid := nat.
(** Address of a payload object on the free store. *)
Definition addr := positive.
(** Address of a [function] object. *)
Definition loc := nat.

Inductive exn :=
| bad_function_call
| payload_exn (code : nat).

#[global] Instance exn_eq_dec : EqDecision exn.
Proof. solve_decision. Defined.

(** What the container needs to know about the payload types of a program
    and about the platform: the fixed signature [R(Args...)], the layout and
    [noexcept] traits of every type, and the behaviour of its copy
    constructor, move constructor and call operator on object states.
    [move_ctor T v] yields the state of the new object together with the
    state left behind in the moved-from object. *)
Class Payloads := {
  value : Type;
  R : Type;
  Args : Type;
  sizeof_ptr : N;
  alignof_ptr : N;
  sizeof : tid → N;
  alignof : tid → N;
  is_nothrow_move_assignable : tid → bool;
  is_nothrow_move_constructible : tid → bool;
  copy_ctor : tid → value → exn + value;
  move_ctor : tid → value → exn + value * value;
  call_op : tid → value → Args → exn + R;
  nothrow_move_ctor :
    ∀ T v, is_nothrow_move_constructible T = true →
           ∃ w r, move_ctor T v = inr (w, r)
}.

(** ** Outcomes and the state monad *)

Inductive outcome (S A : Type) :=
| Normal (a : A) (s : S)
| Thrown (e : exn) (s : S)
| Undefined.
Arguments Normal {S A} a s.
Arguments Thrown {S A} e s.
Arguments Undefined {S A}.

Definition M (S A : Type) : Type := S → outcome S A.

Definition ret {S A} (a : A) : M S A := λ s, Normal a s.

Definition bind {S A B} (m : M S A) (k : A → M S B) : M S B :=
  λ s, match m s with
       | Normal a s' => k a s'
       | Thrown e s' => Thrown e s'
       | Undefined => Undefined
       end.

Definition throw {S A} (e : exn) : M S A := λ s, Thrown e s.
Definition undefined {S A} : M S A := λ _, Undefined.

(** [try { m } catch (...) { h }] *)
Definition try_catch {S A} (m : M S A) (h : exn → M S A) : M S A :=
  λ s, match m s with
       | Thrown e s' => h e s'
       | o => o
       end.

(** A function declared [noexcept]: an escaping exception calls
    [std::terminate], after which the program has no further behaviour. *)
Definition noexcept {S A} (m : M S A) : M S A :=
  try_catch m (λ _, undefined).

#[global] Instance M_ret {S} : MRet (M S) := @ret S.
#[global] Instance M_bind {S} : MBind (M S) := λ A B k m, bind m k.

(** What a caller observes of an outcome, forgetting the final state. *)
Inductive answer (A : Type) :=
| Returns (a : A)
| Raises (e : exn)
| Undef.
Arguments Returns {A} a.
Arguments Raises {A} e.
Arguments Undef {A}.

Definition observe {S A} (o : outcome S A) : answer A :=
  match o with
  | Normal a _ => Returns a
  | Thrown e _ => Raises e
  | Undefined => Undef
  end.

(** ** Storage, free store and machine *)

(** The content of a [storage_t]: nothing meaningful, an object of type [T]
    created in place, or a [T*] created in place. *)
Inductive storage_t `{Payloads} :=
| indeterminate
| inline_obj (T : tid) (v : value)
| heap_ptr (a : addr).

(** An allocated block of the free store: a live object of type [T], or
    memory whose object has been destroyed without being released. *)
Inductive cell `{Payloads} :=
| object (T : tid) (v : value)
| raw_memory.

(** The free store: the blocks obtained from [new] and not yet released. *)
Abbreviation heap := (gmap addr cell).

Section Model.
Context `{Payloads}.

(** [new T(v)] once the constructor has produced [v]. *)
Definition new (T : tid) (v : value) : M heap addr :=
  λ h, let a := fresh (dom h) in Normal a (<[a := object T v]> h).

(** [delete p] for [p : T*]. *)
Definition delete_ptr (T : tid) (a : addr) : M heap unit :=
  λ h, match h !! a with
       | Some (object T' _) =>
           if decide (T' = T) then Normal tt (delete a h) else Undefined
       | _ => Undefined
       end.

(** [*p] for [p : T*] into the free store. *)
Definition deref (T : tid) (a : addr) : M heap value :=
  λ h, match h !! a with
       | Some (object T' v) => if decide (T' = T) then Normal v h else Undefined
       | _ => Undefined
       end.

(** [*p = v] for [p : T*] into the free store. *)
Definition assign_at (T : tid) (a : addr) (v : value) : M heap unit :=
  λ h, match h !! a with
       | Some (object T' _) =>
           if decide (T' = T) then Normal tt (<[a := object T v]> h) else Undefined
       | _ => Undefined
       end.

(** [p->~T()] for [p : T*] into the free store: the block stays allocated. *)
Definition destroy_at (T : tid) (a : addr) : M heap unit :=
  λ h, match h !! a with
       | Some (object T' _) =>
           if decide (T' = T) then Normal tt (<[a := raw_memory]> h) else Undefined
       | _ => Undefined
       end.

(** Running one of the payload's own operations. *)
Definition run {S A} (r : exn + A) : M S A :=
  match r with
  | inr a => ret a
  | inl e => throw e
  end.

(** [struct type_descriptor]: the four operations.  A reference parameter
    that the operation may write is passed in and handed back. *)
Record type_descriptor := {
  copy : storage_t → storage_t → M heap storage_t;
  move : storage_t → storage_t → M heap (storage_t * storage_t);
  destroy : storage_t → M heap storage_t;
  invoke : storage_t → Args → M heap R
}.

(** A [type_descriptor const*]: the descriptors are function-local statics,
    one for the empty state and one per payload type. *)
Inductive descriptor_ptr :=
| empty_func
| of_type (T : tid).

#[global] Instance descriptor_ptr_eq_dec : EqDecision descriptor_ptr.
Proof. solve_decision. Defined.

(** [struct function<R(Args...)>]. *)
Record function := {
  storage : storage_t;
  desc : descriptor_ptr
}.

Record machine := {
  objects : gmap loc function;
  memory : heap
}.

(** A descriptor operation run on the machine's free store. *)
Definition on_heap {A} (m : M heap A) : M machine A :=
  λ s, match m (memory s) with
       | Normal a h => Normal a {| objects := objects s; memory := h |}
       | Thrown e h => Thrown e {| objects := objects s; memory := h |}
       | Undefined => Undefined
       end.

Definition load (this : loc) : M machine function :=
  λ s, match objects s !! this with
       | Some f => Normal f s
       | None => Undefined
       end.

Definition get_desc (this : loc) : M machine descriptor_ptr :=
  f ← load this; mret (desc f).

Definition get_storage (this : loc) : M machine storage_t :=
  f ← load this; mret (storage f).

(** Writing the whole object at [this]. *)
Definition put_object (this : loc) (f : function) : M machine unit :=
  λ s, Normal tt {| objects := <[this := f]> (objects s); memory := memory s |}.

Definition set_desc (this : loc) (d : descriptor_ptr) : M machine unit :=
  f ← load this; put_object this {| storage := storage f; desc := d |}.

Definition set_storage (this : loc) (x : storage_t) : M machine unit :=
  f ← load this; put_object this {| storage := x; desc := desc f |}.

(** The member initialiser list of a constructor: the object comes to life
    at [this] with [desc] initialised and [storage] uninitialised. *)
Definition begin_lifetime (this : loc) (d : descriptor_ptr) : M machine unit :=
  put_object this {| storage := indeterminate; desc := d |}.

Definition end_lifetime (this : loc) : M machine unit :=
  λ s, Normal tt {| objects := delete this (objects s); memory := memory s |}.

(** A constructor with member initialiser [desc(d)] and body [body]: when the
    body throws, the object never existed. *)
Definition constructor (this : loc) (d : descriptor_ptr) (body : M machine unit)
  : M machine unit :=
  begin_lifetime this d;;
  try_catch body (λ e, end_lifetime this;; throw e).

(** ** Classification and casts

    [fits_small], [small_cast], [big_cast] and [cast] read the same in the
    three drafts (part_000 puts them in namespace [details]). *)

(** [sizeof(storage_t)] and [alignof(storage_t)] for
    [std::aligned_storage_t] of the size and alignment of a [void *]. *)
Definition sizeof_storage : N := sizeof_ptr.
Definition alignof_storage : N := alignof_ptr.

Definition fits_small (T : tid) : bool :=
  (sizeof T <? sizeof_storage)%N &&
  (alignof_storage `mod` alignof T =? 0)%N &&
  is_nothrow_move_assignable T &&
  is_nothrow_move_constructible T.

(** A [T*] obtained from a [storage_t&]: the storage itself reinterpreted,
    or the pointer read out of it. *)
Inductive obj_ptr :=
| in_place
| on_free_store (a : addr).

Definition small_cast (T : tid) (s : storage_t) : M heap obj_ptr :=
  mret in_place.

Definition big_cast (T : tid) (s : storage_t) : M heap addr :=
  match s with
  | heap_ptr a => mret a
  | _ => undefined
  end.

Definition cast (T : tid) (s : storage_t) : M heap obj_ptr :=
  if fits_small T then small_cast T s
  else a ← big_cast T s; mret (on_free_store a).

(** [*p] for a [T*] obtained from storage [s]. *)
Definition read (T : tid) (s : storage_t) (p : obj_ptr) : M heap value :=
  match p with
  | in_place =>
      match s with
      | inline_obj T' v => if decide (T' = T) then mret v else undefined
      | _ => undefined
      end
  | on_free_store a => deref T a
  end.

(** [p->~T()] for a [T*] obtained from storage [s]; hands back the storage. *)
Definition destructor_call (T : tid) (s : storage_t) (p : obj_ptr)
  : M heap storage_t :=
  match p with
  | in_place =>
      match s with
      | inline_obj T' _ => if decide (T' = T) then mret indeterminate else undefined
      | _ => undefined
      end
  | on_free_store a => destroy_at T a;; mret s
  end.

(** Pointers handed out by [target]. *)
Inductive pointer :=
| nullptr
| into_storage (p : loc)
| into_heap (a : addr).

Definition pointer_of (this : loc) (p : obj_ptr) : pointer :=
  match p with
  | in_place => into_storage this
  | on_free_store a => into_heap a
  end.

(** Client code reading the [T] behind a pointer it got from [target]. *)
Definition peek (T : tid) (ptr : pointer) : M machine value :=
  match ptr with
  | nullptr => undefined
  | into_storage p => s ← get_storage p; on_heap (read T s in_place)
  | into_heap a => on_heap (deref T a)
  end.

(** Client code overwriting the state of the [T] behind such a pointer. *)
Definition poke (T : tid) (ptr : pointer) (v : value) : M machine unit :=
  match ptr with
  | nullptr => undefined
  | into_storage p =>
      s ← get_storage p; on_heap (read T s in_place);;
      set_storage p (inline_obj T v)
  | into_heap a => on_heap (assign_at T a v)
  end.

End Model.

(** ** src/unnamed/part_000 *)

Module Part000.
Section Code.
Context `{Payloads}.

Definition get_empty_func_descriptor : descriptor_ptr := empty_func.

Definition empty_func_descriptor : type_descriptor := {|
  copy _ dst := mret dst;
  move src dst := mret (src, dst);
  destroy src := mret src;
  invoke _ _ := throw bad_function_call
|}.

Definition get_descriptor (T : tid) : descriptor_ptr := of_type T.

Definition descriptor (T : tid) : type_descriptor := {|
  copy src dst :=
    if fits_small T then
      p ← small_cast T src; v ← read T src p;
      v' ← run (copy_ctor T v);
      mret (inline_obj T v')
    else
      a ← big_cast T src; v ← deref T a;
      v' ← run (copy_ctor T v);
      ptr ← new T v';
      mret (heap_ptr ptr);
  move src dst :=
    if fits_small T then
      p ← small_cast T src; v ← read T src p;
      wr ← run (move_ctor T v);
      q ← small_cast T (inline_obj T wr.2);
      src' ← destructor_call T (inline_obj T wr.2) q;
      mret (src', inline_obj T wr.1)
    else
      a ← big_cast T src;
      mret (src, heap_ptr a);
  destroy src :=
    if fits_small T then
      p ← small_cast T src; destructor_call T src p
    else
      a ← big_cast T src; delete_ptr T a;; mret src;
  invoke src args :=
    p ← cast T src; v ← read T src p;
    run (call_op T v args)
|}.

(** [d->] for a descriptor pointer [d]. *)
Definition table (d : descriptor_ptr) : type_descriptor :=
  match d with
  | empty_func => empty_func_descriptor
  | of_type T => descriptor T
  end.

(** [function() noexcept] *)
Definition function_default (this : loc) : M machine unit :=
  noexcept (constructor this get_empty_func_descriptor (mret tt)).

(** [function(function const& other)] *)
Definition function_copy (this other : loc) : M machine unit :=
  d ← get_desc other;
  constructor this d (
    od ← get_desc other;
    src ← get_storage other; dst ← get_storage this;
    dst' ← on_heap (copy (table od) src dst);
    set_storage this dst').

(** [function(function&& other)] *)
Definition function_move (this other : loc) : M machine unit :=
  d ← get_desc other;
  constructor this d (
    set_desc other get_empty_func_descriptor;;
    d ← get_desc this;
    src ← get_storage other; dst ← get_storage this;
    sd ← on_heap (move (table d) src dst);
    set_storage other sd.1;;
    set_storage this sd.2).

(** [template <typename T> function(T val)] *)
Definition function_from (T : tid) (this : loc) (val : value) : M machine unit :=
  constructor this (get_descriptor T) (
    if fits_small T then
      wr ← on_heap (run (move_ctor T val));
      set_storage this (inline_obj T wr.1)
    else
      wr ← on_heap (run (move_ctor T val));
      ptr ← on_heap (new T wr.1);
      set_storage this (heap_ptr ptr)).

(** [function& operator=(function const& other)] *)
Definition assign_copy (this other : loc) : M machine unit :=
  if decide (this ≠ other) then
    od ← get_desc other; src ← get_storage other;
    buf ← on_heap (copy (table od) src indeterminate);
    d ← get_desc this; s ← get_storage this;
    s' ← on_heap (destroy (table d) s);
    set_storage this s';;
    od ← get_desc other;
    set_desc this od;;
    set_storage this buf
  else mret tt.

(** [function& operator=(function&& other) noexcept] *)
Definition assign_move (this other : loc) : M machine unit :=
  noexcept (
    if decide (this ≠ other) then
      d ← get_desc this; s ← get_storage this;
      s' ← on_heap (destroy (table d) s);
      set_storage this s';;
      od ← get_desc other;
      set_desc this od;;
      d ← get_desc this;
      src ← get_storage other; dst ← get_storage this;
      sd ← on_heap (move (table d) src dst);
      set_storage other sd.1;;
      set_storage this sd.2;;
      set_desc other get_empty_func_descriptor
    else mret tt).

(** [~function()] *)
Definition function_dtor (this : loc) : M machine unit :=
  d ← get_desc this; s ← get_storage this;
  s' ← on_heap (destroy (table d) s);
  set_storage this s';;
  end_lifetime this.

(** [explicit operator bool() const noexcept] *)
Definition operator_bool (this : loc) : M machine bool :=
  noexcept (
    d ← get_desc this;
    mret (bool_decide (get_empty_func_descriptor ≠ d))).

(** [R operator()(Args&&... args) const] *)
Definition operator_call (this : loc) (args : Args) : M machine R :=
  d ← get_desc this; s ← get_storage this;
  on_heap (invoke (table d) s args).

(** [template <typename T> T* target() noexcept] *)
Definition target (T : tid) (this : loc) : M machine pointer :=
  noexcept (
    d ← get_desc this;
    if decide (get_descriptor T = d) then
      s ← get_storage this;
      p ← on_heap (cast T s);
      mret (pointer_of this p)
    else mret nullptr).

End Code.
End Part000.

(** ** src/function.h, first draft (lines 1-220) *)

Module Header1.
Section Code.
Context `{Payloads}.

Definition get_empty_func_descriptor : descriptor_ptr := empty_func.

Definition empty_func_descriptor : type_descriptor := {|
  copy src dst := mret src;
  move src dst := mret (src, src);
  destroy src := mret src;
  invoke _ _ := throw bad_function_call
|}.

Definition get_descriptor (T : tid) : descriptor_ptr := of_type T.

Definition descriptor (T : tid) : type_descriptor := {|
  copy src dst :=
    if fits_small T then
      mret src
    else
      a ← big_cast T src; v ← deref T a;
      v' ← run (copy_ctor T v);
      ptr ← new T v';
      mret (heap_ptr ptr);
  move src dst :=
    if fits_small T then
      mret (src, src)
    else
      try_catch (
        a ← big_cast T src; v ← deref T a;
        wr ← run (move_ctor T v);
        assign_at T a wr.2;;
        ptr ← new T wr.1;
        mret (src, heap_ptr ptr))
      (λ _, mret (dst, src));
  destroy src :=
    p ← cast T src; destructor_call T src p;
  invoke src args :=
    p ← cast T src; v ← read T src p;
    run (call_op T v args)
|}.

Definition table (d : descriptor_ptr) : type_descriptor :=
  match d with
  | empty_func => empty_func_descriptor
  | of_type T => descriptor T
  end.

(** [function() noexcept] *)
Definition function_default (this : loc) : M machine unit :=
  noexcept (constructor this get_empty_func_descriptor (mret tt)).

(** [function(function&& other)] *)
Definition function_move (this other : loc) : M machine unit :=
  d ← get_desc other;
  constructor this d (
    set_desc other get_empty_func_descriptor;;
    d ← get_desc this;
    src ← get_storage other; dst ← get_storage this;
    sd ← on_heap (move (table d) src dst);
    set_storage other sd.1;;
    set_storage this sd.2).

(** [function(function const& other)] *)
Definition function_copy (this other : loc) : M machine unit :=
  d ← get_desc other;
  constructor this d (
    od ← get_desc other;
    src ← get_storage other; dst ← get_storage this;
    dst' ← on_heap (copy (table od) src dst);
    set_storage this dst').

(** [template <typename T> function(T val)]: the placement test leaves out
    the two [noexcept] traits of [fits_small]. *)
Definition function_from (T : tid) (this : loc) (val : value) : M machine unit :=
  constructor this (get_descriptor T) (
    if (sizeof T <? sizeof_storage)%N && (alignof_storage `mod` alignof T =? 0)%N then
      wr ← on_heap (run (move_ctor T val));
      set_storage this (inline_obj T wr.1)
    else
      wr ← on_heap (run (move_ctor T val));
      ptr ← on_heap (new T wr.1);
      set_storage this (heap_ptr ptr)).

(** [function& operator=(function const& other)] *)
Definition assign_copy (this other : loc) : M machine unit :=
  if decide (this ≠ other) then
    d ← get_desc this; s ← get_storage this;
    s' ← on_heap (destroy (table d) s);
    set_storage this s';;
    od ← get_desc other;
    set_desc this od;;
    od ← get_desc other;
    src ← get_storage other; dst ← get_storage this;
    dst' ← on_heap (copy (table od) src dst);
    set_storage this dst'
  else mret tt.

(** [function& operator=(function&& other) noexcept] *)
Definition assign_move (this other : loc) : M machine unit :=
  noexcept (
    if decide (this ≠ other) then
      d ← get_desc this; s ← get_storage this;
      s' ← on_heap (destroy (table d) s);
      set_storage this s';;
      od ← get_desc other;
      set_desc this od;;
      set_desc other get_empty_func_descriptor;;
      d ← get_desc this;
      src ← get_storage other; dst ← get_storage this;
      sd ← on_heap (move (table d) src dst);
      set_storage other sd.1;;
      set_storage this sd.2
    else mret tt).

(** [~function()] *)
Definition function_dtor (this : loc) : M machine unit :=
  d ← get_desc this; s ← get_storage this;
  s' ← on_heap (destroy (table d) s);
  set_storage this s';;
  end_lifetime this.

(** [explicit operator bool() const noexcept] *)
Definition operator_bool (this : loc) : M machine bool :=
  noexcept (
    d ← get_desc this;
    mret (bool_decide (get_empty_func_descriptor ≠ d))).

(** [R operator()(Args... args) const] *)
Definition operator_call (this : loc) (args : Args) : M machine R :=
  d ← get_desc this; s ← get_storage this;
  on_heap (invoke (table d) s args).

(** [template <typename T> T* target() noexcept] *)
Definition target (T : tid) (this : loc) : M machine pointer :=
  noexcept (
    b ← operator_bool this;
    d ← get_desc this;
    if b && bool_decide (get_descriptor T = d) then
      s ← get_storage this;
      p ← on_heap (cast T s);
      mret (pointer_of this p)
    else mret nullptr).

End Code.
End Header1.

(** ** src/function.h, second draft (lines 220-407) *)

Module Header2.
Section Code.
Context `{Payloads}.

Definition get_empty_func_descriptor : descriptor_ptr := empty_func.

Definition empty_func_descriptor : type_descriptor := {|
  copy src dst := mret src;
  move src dst := mret (src, src);
  destroy src := mret src;
  invoke _ _ := throw bad_function_call
|}.

Definition get_descriptor (T : tid) : descriptor_ptr := of_type T.

Definition descriptor (T : tid) : type_descriptor := {|
  copy src dst :=
    if fits_small T then
      p ← small_cast T src; v ← read T src p;
      v' ← run (copy_ctor T v);
      mret (inline_obj T v')
    else
      a ← big_cast T src; v ← deref T a;
      v' ← run (copy_ctor T v);
      ptr ← new T v';
      mret (heap_ptr ptr);
  move src dst :=
    if fits_small T then
      p ← small_cast T src; v ← read T src p;
      wr ← run (move_ctor T v);
      mret (inline_obj T wr.2, inline_obj T wr.1)
    else
      a ← big_cast T src;
      mret (src, heap_ptr a);
  destroy src :=
    if fits_small T then
      p ← small_cast T src; destructor_call T src p
    else
      a ← big_cast T src; delete_ptr T a;; mret src;
  invoke src args :=
    p ← cast T src; v ← read T src p;
    run (call_op T v args)
|}.

Definition table (d : descriptor_ptr) : type_descriptor :=
  match d with
  | empty_func => empty_func_descriptor
  | of_type T => descriptor T
  end.

(** [function() noexcept] *)
Definition function_default (this : loc) : M machine unit :=
  noexcept (constructor this get_empty_func_descriptor (mret tt)).

(** [function(function const& other)] *)
Definition function_copy (this other : loc) : M machine unit :=
  d ← get_desc other;
  constructor this d (
    od ← get_desc other;
    src ← get_storage other; dst ← get_storage this;
    dst' ← on_heap (copy (table od) src dst);
    set_storage this dst').

(** [function(function&& other)] *)
Definition function_move (this other : loc) : M machine unit :=
  d ← get_desc other;
  constructor this d (
    set_desc other get_empty_func_descriptor;;
    d ← get_desc this;
    src ← get_storage other; dst ← get_storage this;
    sd ← on_heap (move (table d) src dst);
    set_storage other sd.1;;
    set_storage this sd.2).

(** [template <typename T> function(T val)] *)
Definition function_from (T : tid) (this : loc) (val : value) : M machine unit :=
  constructor this (get_descriptor T) (
    if fits_small T then
      wr ← on_heap (run (move_ctor T val));
      set_storage this (inline_obj T wr.1)
    else
      wr ← on_heap (run (move_ctor T val));
      ptr ← on_heap (new T wr.1);
      set_storage this (heap_ptr ptr)).

(** [function& operator=(function const& other)] *)
Definition assign_copy (this other : loc) : M machine unit :=
  if decide (this ≠ other) then
    od ← get_desc other; src ← get_storage other;
    buf ← on_heap (copy (table od) src indeterminate);
    d ← get_desc this; s ← get_storage this;
    s' ← on_heap (destroy (table d) s);
    set_storage this s';;
    od ← get_desc other;
    set_desc this od;;
    set_storage this buf
  else mret tt.

(** [function& operator=(function&& other) noexcept] *)
Definition assign_move (this other : loc) : M machine unit :=
  noexcept (
    if decide (this ≠ other) then
      d ← get_desc this; s ← get_storage this;
      s' ← on_heap (destroy (table d) s);
      set_storage this s';;
      od ← get_desc other;
      set_desc this od;;
      set_desc other get_empty_func_descriptor;;
      d ← get_desc this;
      src ← get_storage other; dst ← get_storage this;
      sd ← on_heap (move (table d) src dst);
      set_storage other sd.1;;
      set_storage this sd.2
    else mret tt).

(** [~function()] *)
Definition function_dtor (this : loc) : M machine unit :=
  d ← get_desc this; s ← get_storage this;
  s' ← on_heap (destroy (table d) s);
  set_storage this s';;
  end_lifetime this.

(** [explicit operator bool() const noexcept] *)
Definition operator_bool (this : loc) : M machine bool :=
  noexcept (
    d ← get_desc this;
    mret (bool_decide (get_empty_func_descriptor ≠ d))).

(** [R operator()(Args&&... args) const] *)
Definition operator_call (this : loc) (args : Args) : M machine R :=
  d ← get_desc this; s ← get_storage this;
  on_heap (invoke (table d) s args).

(** [template <typename T> T* target() noexcept] *)
Definition target (T : tid) (this : loc) : M machine pointer :=
  noexcept (
    b ← operator_bool this;
    d ← get_desc this;
    if b && bool_decide (get_descriptor T = d) then
      s ← get_storage this;
      p ← on_heap (cast T s);
      mret (pointer_of this p)
    else mret nullptr).

End Code.
End Header2.

(** ** A concrete program for the examples

    Signature [Z(Z)] on a platform with 8-byte pointers.  Object states are
    integers; every call operator adds the state to its argument.

    - type 0: 4 bytes, [noexcept] moves (a lambda capturing an [int]);
    - type 1: 16 bytes, [noexcept] moves;
    - type 2: 4 bytes, move constructor not [noexcept];
    - type 3: 16 bytes, copy constructor always throws [payload_exn 7].

    A moved-from object is left in state 0. *)
Module Sample.

Definition sample_sizeof (T : tid) : N :=
  match T with 0 | 2 => 4 | _ => 16 end.

Definition sample_alignof (T : tid) : N :=
  match T with 0 | 2 => 4 | _ => 8 end.

Definition sample_nothrow_move (T : tid) : bool :=
  match T with 2 => false | _ => true end.

Definition sample_copy_ctor (T : tid) (v : Z) : exn + Z :=
  match T with 3 => inl (payload_exn 7) | _ => inr v end.

Definition sample_move_ctor (T : tid) (v : Z) : exn + Z * Z := inr (v, 0%Z).

Definition sample_call_op (T : tid) (v x : Z) : exn + Z := inr (v + x)%Z.

Lemma sample_nothrow_move_ctor (T : tid) (v : Z) :
  sample_nothrow_move T = true → ∃ w r, sample_move_ctor T v = inr (w, r).
Proof. intros _. by exists v, 0%Z. Qed.

#[export] Instance sample : Payloads := {|
  value := Z;
  R := Z;
  Args := Z;
  sizeof_ptr := 8;
  alignof_ptr := 8;
  sizeof := sample_sizeof;
  alignof := sample_alignof;
  is_nothrow_move_assignable := sample_nothrow_move;
  is_nothrow_move_constructible := sample_nothrow_move;
  copy_ctor := sample_copy_ctor;
  move_ctor := sample_move_ctor;
  call_op := sample_call_op;
  nothrow_move_ctor := sample_nothrow_move_ctor
|}.

(** The machine before any object exists. *)
Definition boot : machine := {| objects := ∅; memory := ∅ |}.

(** Container 10 holds the small callable "add 5"; container 11 holds the
    large callable "add 7" in block 1. *)
Definition demo : machine := {|
  objects := <[10 := {| storage := inline_obj 0 5%Z; desc := of_type 0 |}]>
               (<[11 := {| storage := heap_ptr 1%positive; desc := of_type 1 |}]> ∅);
  memory := <[1%positive := object 1 7%Z]> ∅
|}.

(** Container 10 holds "add 5"; container 13 holds a callable of type 3,
    whose copy constructor throws, in block 1. *)
Definition fragile : machine := {|
  objects := <[10 := {| storage := inline_obj 0 5%Z; desc := of_type 0 |}]>
               (<[13 := {| storage := heap_ptr 1%positive; desc := of_type 3 |}]> ∅);
  memory := <[1%positive := object 3 7%Z]> ∅
|}.

End Sample.

(** ** States of a container and the ownership invariant *)

Section States.
Context `{Payloads}.

(** [Holding<T>]: the descriptor is [T]'s and the storage holds a live [T]
    in state [v], in place or through the owning pointer, as [fits_small]
    prescribes. *)
Definition holding (h : heap) (f : function) (T : tid) (v : value) : Prop :=
  desc f = of_type T ∧
  if fits_small T then storage f = inline_obj T v
  else ∃ a, storage f = heap_ptr a ∧ h !! a = Some (object T v).

Definition is_empty (f : function) : Prop := desc f = empty_func.

Definition well_formed (h : heap) (f : function) : Prop :=
  is_empty f ∨ ∃ T v, holding h f T v.

(** The block a container owns: the pointer in the storage of a container
    bound to the descriptor of a large type. *)
Definition owner (f : function) : option addr :=
  match desc f, storage f with
  | of_type T, heap_ptr a => if fits_small T then None else Some a
  | _, _ => None
  end.

Record consistent (s : machine) : Prop := {
  objects_well_formed :
    ∀ p f, objects s !! p = Some f → well_formed (memory s) f;
  owners_distinct :
    ∀ p q f g a, objects s !! p = Some f → objects s !! q = Some g →
                 owner f = Some a → owner g = Some a → p = q;
  blocks_owned :
    ∀ a, is_Some (memory s !! a) →
         ∃ p f, objects s !! p = Some f ∧ owner f = Some a
}.

(** The payload's copy and move constructors produce an object that the
    call operator cannot tell from the original (the CopyConstructible and
    MoveConstructible requirements). *)
Definition CopyConstructible (T : tid) : Prop :=
  ∀ v v' args, copy_ctor T v = inr v' → call_op T v' args = call_op T v args.

Definition MoveConstructible (T : tid) : Prop :=
  ∀ v w r args, move_ctor T v = inr (w, r) → call_op T w args = call_op T v args.

(** A descriptor whose [copy], [move] and [destroy] are no-ops: they hand
    back both storages as they got them and leave the free store alone. *)
Definition no_op_descriptor (d : type_descriptor) : Prop :=
  ∀ src dst h,
    copy d src dst h = Normal dst h ∧
    move d src dst h = Normal (src, dst) h ∧
    destroy d src h = Normal src h.

(** A location where no container owns a block. *)
Definition unowned (o : gmap loc function) (p : loc) : Prop :=
  ∀ f, o !! p = Some f → owner f = None.

(** Two containers that do not own the same block. *)
Definition separate (f g : function) : Prop :=
  ∀ a, owner f = Some a → owner g = Some a → False.

(** What a caller sees once [other] has been moved into [this], taking the
    machine from [s] to [s1]: [other] is empty, throws on call and can be
    destroyed without touching the free store, and [this] answers as
    [other] did. *)
Definition moved (s s1 : machine) (this other : loc) : Prop :=
  observe (Part000.operator_bool other s1) = Returns false ∧
  (∀ args, observe (Part000.operator_call other args s1) = Raises bad_function_call) ∧
  (∃ s2, Part000.function_dtor other s1 = Normal tt s2 ∧
         memory s2 = memory s1 ∧ objects s2 = delete other (objects s1)) ∧
  observe (Part000.operator_bool this s1) = observe (Part000.operator_bool other s) ∧
  (∀ args, observe (Part000.operator_call this args s1)
           = observe (Part000.operator_call other args s)).

(** The answer of one of the payload's own operations. *)
Definition result {A} (r : exn + A) : answer A :=
  match r with
  | inl e => Raises e
  | inr a => Returns a
  end.

(** Copy-constructing [this] from [other], which holds a [T] in state [v],
    with the given implementation of the copy constructor, the call operator
    and [target]: the copy succeeds and leaves [other] as it was, [this]
    answers calls as [other] does, and overwriting the state of either
    payload through its [target] pointer changes what that container
    answers and not what the other one answers. *)
Definition copy_independent
    (function_copy : loc → loc → M machine unit)
    (operator_call : loc → Args → M machine R)
    (target : tid → loc → M machine pointer)
    (s : machine) (this other : loc) (g : function) (T : tid) (v : value)
  : Prop :=
  ∃ s1,
    function_copy this other s = Normal tt s1 ∧
    objects s1 !! other = Some g ∧
    holding (memory s1) g T v ∧
    (∀ args, observe (operator_call other args s1) = result (call_op T v args)) ∧
    (∀ args, observe (operator_call this args s1) = result (call_op T v args)) ∧
    (∀ w, ∃ pa s2,
        target T other s1 = Normal pa s1 ∧
        poke T pa w s1 = Normal tt s2 ∧
        (∀ args, observe (operator_call other args s2) = result (call_op T w args)) ∧
        (∀ args, observe (operator_call this args s2) = result (call_op T v args))) ∧
    (∀ w, ∃ pb s2,
        target T this s1 = Normal pb s1 ∧
        poke T pb w s1 = Normal tt s2 ∧
        (∀ args, observe (operator_call this args s2) = result (call_op T w args)) ∧
        (∀ args, observe (operator_call other args s2) = result (call_op T v args))).

End States.

(** ** Programs over part_000's container *)

Section Programs.
Context `{Payloads}.

Inductive op :=
| Default (this : loc)
| FromValue (T : tid) (this : loc) (val : value)
| CopyConstruct (this other : loc)
| MoveConstruct (this other : loc)
| CopyAssign (this other : loc)
| MoveAssign (this other : loc)
| Destruct (this : loc).

Definition exec (o : op) : M machine unit :=
  match o with
  | Default this => Part000.function_default this
  | FromValue T this val => Part000.function_from T this val
  | CopyConstruct this other => Part000.function_copy this other
  | MoveConstruct this other => Part000.function_move this other
  | CopyAssign this other => Part000.assign_copy this other
  | MoveAssign this other => Part000.assign_move this other
  | Destruct this => Part000.function_dtor this
  end.

(** An operation makes sense in [s]: a constructor runs on storage where no
    container lives, everything else on live containers. *)
Definition valid (o : op) (s : machine) : Prop :=
  match o with
  | Default this | FromValue _ this _ => objects s !! this = None
  | CopyConstruct this other | MoveConstruct this other =>
      objects s !! this = None ∧ is_Some (objects s !! other)
  | CopyAssign this other | MoveAssign this other =>
      is_Some (objects s !! this) ∧ is_Some (objects s !! other)
  | Destruct this => is_Some (objects s !! this)
  end.

(** The state an outcome leaves behind, when it leaves one. *)
Definition final {A} (o : outcome machine A) : option machine :=
  match o with
  | Normal _ s | Thrown _ s => Some s
  | Undefined => None
  end.

(** States reached from the empty machine by chains of valid operations,
    whether they complete or throw. *)
Inductive reachable : machine → Prop :=
| reach_boot : reachable {| objects := ∅; memory := ∅ |}
| reach_step s o s' :
    reachable s → valid o s → final (exec o s) = Some s' → reachable s'.

(** The same programs run with the second draft of function.h. *)
Definition exec_header2 (o : op) : M machine unit :=
  match o with
  | Default this => Header2.function_default this
  | FromValue T this val => Header2.function_from T this val
  | CopyConstruct this other => Header2.function_copy this other
  | MoveConstruct this other => Header2.function_move this other
  | CopyAssign this other => Header2.assign_copy this other
  | MoveAssign this other => Header2.assign_move this other
  | Destruct this => Header2.function_dtor this
  end.

Inductive reachable_header2 : machine → Prop :=
| reach2_boot : reachable_header2 {| objects := ∅; memory := ∅ |}
| reach2_step s o s' :
    reachable_header2 s → valid o s → final (exec_header2 o s) = Some s' →
    reachable_header2 s'.

End Programs.

(** * Verification *)

(** Symbolic execution: unfold the operations down to the state monad and
    simplify lookups in the object map and the free store. *)
Ltac unfold_monad :=
  unfold peek, poke, cast, destructor_call, read, pointer_of in *;
  unfold constructor, noexcept, try_catch, begin_lifetime, end_lifetime,
    set_desc, set_storage, get_desc, get_storage, small_cast, big_cast in *;
  unfold load, put_object, on_heap,
    run, undefined, throw, new, delete_ptr, deref, assign_at, destroy_at,
    mbind, M_bind, bind, mret, M_ret, ret in *.

Ltac unfold_part000 :=
  unfold Part000.function_default, Part000.operator_bool, Part000.operator_call,
    Part000.assign_copy, Part000.assign_move, Part000.function_copy,
    Part000.function_move, Part000.function_from, Part000.function_dtor,
    Part000.target, Part000.get_empty_func_descriptor, Part000.get_descriptor in *.

Ltac unfold_header1 :=
  unfold Header1.function_default, Header1.operator_bool, Header1.operator_call,
    Header1.assign_copy, Header1.assign_move, Header1.function_copy,
    Header1.function_move, Header1.function_from, Header1.function_dtor,
    Header1.target in *;
  unfold Header1.operator_bool,
    Header1.get_empty_func_descriptor, Header1.get_descriptor in *.

Ltac unfold_header2 :=
  unfold Header2.function_default, Header2.operator_bool, Header2.operator_call,
    Header2.assign_copy, Header2.assign_move, Header2.function_copy,
    Header2.function_move, Header2.function_from, Header2.function_dtor,
    Header2.target in *;
  unfold Header2.operator_bool,
    Header2.get_empty_func_descriptor, Header2.get_descriptor in *.

Ltac simp :=
  repeat (progress (cbn in *; simplify_map_eq;
                    repeat match goal with
                           | f : function |- _ => destruct f
                           | s : machine |- _ => destruct s
                           end)).

Ltac exec := unfold_part000; unfold_header1; unfold_header2; unfold_monad; simp.

(** Rewrite with what is known of the payload and of the maps. *)
Ltac known :=
  repeat match goal with
         | E : fits_small ?T = _ |- context [fits_small ?T] => rewrite E
         | E : move_ctor ?T ?v = _ |- context [move_ctor ?T ?v] => rewrite E
         | E : copy_ctor ?T ?v = _ |- context [copy_ctor ?T ?v] => rewrite E
         | E : ?m !! ?a = _ |- context [?m !! ?a] => rewrite E
         | E : copy ?d ?x ?y ?h = _ |- context [copy ?d ?x ?y ?h] => rewrite E
         | E : destroy ?d ?x ?h = _ |- context [destroy ?d ?x ?h] => rewrite E
         end.

Ltac go := repeat (progress (exec; known)).

(** Close a goal comparing what two calls answer, given equations between
    the answers of the payload's call operator. *)
Ltac answers :=
  let args := fresh "args" in
  intros args;
  repeat match goal with
         | E : ∀ a, call_op ?T ?v a = _ |- context [call_op ?T ?v args] =>
             rewrite (E args)
         end;
  repeat match goal with
         | |- context [call_op ?T ?v args] => destruct (call_op T v args)
         end;
  done.

(** The three shapes of a well-formed container: empty, holding a small
    payload in place, holding a large payload through its pointer. *)
Ltac shape Hw :=
  let T := fresh "T" in let v := fresh "v" in let Hd := fresh "Hd" in
  let Hs := fresh "Hs" in let a := fresh "a" in let Hp := fresh "Hp" in
  let Ha := fresh "Ha" in
  destruct Hw as [Hd | (T & v & Hd & Hw)];
  [ unfold is_empty in Hd
  | destruct (fits_small T) eqn:Hs; [ | destruct Hw as (a & Hp & Ha) ] ].

Section Basics.
Context `{Payloads}.

Lemma fresh_lookup (h : heap) : h !! fresh (dom h) = None.
Proof. apply not_elem_of_dom, is_fresh. Qed.

Lemma fits_small_nothrow T v :
  fits_small T = true → ∃ w r, move_ctor T v = inr (w, r).
Proof.
  unfold fits_small. rewrite !andb_true_iff. intros [_ ?].
  by apply nothrow_move_ctor.
Qed.

(** C6.  A default-constructed container is empty: [operator bool] answers
    [false], and a call with any arguments throws [bad_function_call] and
    leaves the machine as it was. *)
Theorem default_constructed_is_empty (this : loc) (s : machine) (args : Args) :
  let s' := {| objects := <[this := {| storage := indeterminate;
                                        desc := empty_func |}]> (objects s);
               memory := memory s |} in
  Part000.function_default this s = Normal tt s' ∧
  Part000.operator_bool this s' = Normal false s' ∧
  Part000.operator_call this args s' = Thrown bad_function_call s'.
Proof. exec. done. Qed.

Lemma assign_copy_self (this : loc) (s : machine) :
  Part000.assign_copy this this s = Normal tt s.
Proof.
  unfold Part000.assign_copy. by destruct (decide (this ≠ this)).
Qed.

Lemma assign_move_self (this : loc) (s : machine) :
  Part000.assign_move this this s = Normal tt s.
Proof.
  unfold Part000.assign_move, noexcept, try_catch.
  by destruct (decide (this ≠ this)).
Qed.

(** C10.  Assigning a container to itself, by copy or by move, returns
    normally and leaves the whole machine (descriptor, storage and free
    store) exactly as it was; nothing is destroyed. *)
Theorem self_assignment_is_identity (this : loc) (s : machine) :
  Part000.assign_copy this this s = Normal tt s ∧
  Part000.assign_move this this s = Normal tt s.
Proof. split; [apply assign_copy_self | apply assign_move_self]. Qed.

(** C9, amended.  Every draft has one empty descriptor, and a container is
    empty exactly when its [desc] is that pointer.  Its [destroy] does
    nothing, its [copy] and [move] never change the source, and its [invoke]
    throws [bad_function_call] whatever the arguments.  In part_000 [copy]
    and [move] leave the destination alone as well; in both drafts of
    function.h they assign the source to the destination. *)
Theorem empty_descriptor_operations (src dst : storage_t) (h : heap) (args : Args) :
  (Part000.table Part000.get_empty_func_descriptor = Part000.empty_func_descriptor ∧
   Header1.table Header1.get_empty_func_descriptor = Header1.empty_func_descriptor ∧
   Header2.table Header2.get_empty_func_descriptor = Header2.empty_func_descriptor) ∧
  (∀ f : function,
     is_empty f ↔ desc f = Part000.get_empty_func_descriptor) ∧
  (∀ this s,
     is_Some (objects s !! this) →
     ∃ b, Part000.operator_bool this s = Normal b s ∧
          Header1.operator_bool this s = Normal b s ∧
          Header2.operator_bool this s = Normal b s ∧
          (b = false ↔ ∃ f, objects s !! this = Some f ∧ is_empty f)) ∧
  no_op_descriptor Part000.empty_func_descriptor ∧
  (copy Header1.empty_func_descriptor src dst h = Normal src h ∧
   move Header1.empty_func_descriptor src dst h = Normal (src, src) h ∧
   destroy Header1.empty_func_descriptor src h = Normal src h) ∧
  (copy Header2.empty_func_descriptor src dst h = Normal src h ∧
   move Header2.empty_func_descriptor src dst h = Normal (src, src) h ∧
   destroy Header2.empty_func_descriptor src h = Normal src h) ∧
  invoke Part000.empty_func_descriptor src args h = Thrown bad_function_call h ∧
  invoke Header1.empty_func_descriptor src args h = Thrown bad_function_call h ∧
  invoke Header2.empty_func_descriptor src args h = Thrown bad_function_call h.
Proof.
  repeat split; try done.
  intros this s [f Hf]. exists (bool_decide (empty_func ≠ desc f)).
  repeat split; try (by exec).
  - intros Hb. exists f. split; [done|]. unfold is_empty.
    apply bool_decide_eq_false in Hb. by destruct (desc f); [|destruct Hb].
  - intros (g & Hg & He). unfold is_empty in He.
    assert (g = f) as -> by congruence.
    apply bool_decide_eq_false. rewrite He. by intros Hn.
Qed.

End Basics.

(** ** Classification and construction from a value *)

Section Construction.
Context `{Payloads}.

Lemma fits_small_iff T :
  fits_small T = true ↔
    (sizeof T < sizeof_storage)%N ∧ (alignof_storage `mod` alignof T = 0)%N ∧
    is_nothrow_move_assignable T = true ∧ is_nothrow_move_constructible T = true.
Proof.
  unfold fits_small. rewrite !andb_true_iff, N.ltb_lt, N.eqb_eq. tauto.
Qed.

(** part_000 satisfies C3.  [T] is small exactly when it is strictly smaller
    than the storage, its alignment divides the storage's and both of its
    moves are [noexcept]; the constructor from a value places the payload in
    the storage without touching the free store when [T] is small, and
    otherwise makes one allocation and stores its address; either way the
    container holds the value as [T]'s descriptor expects it. *)
Theorem construct_places_by_classification T this val s w r :
  move_ctor T val = inr (w, r) →
  (fits_small T = true ↔
    (sizeof T < sizeof_storage)%N ∧ (alignof_storage `mod` alignof T = 0)%N ∧
    is_nothrow_move_assignable T = true ∧ is_nothrow_move_constructible T = true) ∧
  ∃ s' f,
    Part000.function_from T this val s = Normal tt s' ∧
    objects s' = <[this := f]> (objects s) ∧
    holding (memory s') f T w ∧
    if fits_small T
    then f = {| storage := inline_obj T w; desc := Part000.get_descriptor T |} ∧
         memory s' = memory s
    else ∃ a, f = {| storage := heap_ptr a; desc := Part000.get_descriptor T |} ∧
              memory s !! a = None ∧
              memory s' = <[a := object T w]> (memory s).
Proof.
  intros Hm. split; [apply fits_small_iff|]. destruct s as [o m].
  unfold holding. destruct (fits_small T) eqn:Hs.
  - eexists _, _. split; [go; reflexivity|].
    simp. rewrite insert_insert_eq. done.
  - eexists _, _. split; [go; reflexivity|].
    simp. rewrite insert_insert_eq. repeat split; eauto using fresh_lookup.
    eexists. split; [done|]. by rewrite lookup_insert_eq.
Qed.

(** part_000 satisfies C4.  For a small [T] the descriptor's [move] runs
    [T]'s move constructor into the destination and then destroys what is
    left in the source, whose storage holds no object afterwards. *)
Theorem small_move_constructs_then_destroys T v dst h :
  fits_small T = true →
  ∃ w r, move_ctor T v = inr (w, r) ∧
         move (Part000.descriptor T) (inline_obj T v) dst h
         = Normal (indeterminate, inline_obj T w) h.
Proof.
  intros Hs. destruct (fits_small_nothrow T v Hs) as (w & r & Hm).
  exists w, r. split; [done|]. cbn. go. done.
Qed.

End Construction.

(** ** Copy assignment *)

Section CopyAssignment.
Context `{Payloads}.

Lemma copy_throw_keeps_heap d src dst h e h' :
  copy (Part000.table d) src dst h = Thrown e h' → h' = h.
Proof.
  destruct d as [|T]; [done|]. cbn. unfold_monad.
  intros Hr. repeat (case_match; simplify_eq/=); done.
Qed.

Lemma destroy_never_throws d src h e h' :
  destroy (Part000.table d) src h ≠ Thrown e h'.
Proof.
  destruct d as [|T]; [done|]. cbn. unfold_monad.
  intros Hr. repeat (case_match; simplify_eq/=); done.
Qed.

(** part_000 satisfies C1.  Whenever copy assignment throws, the machine is
    exactly as it was before the call: the target's descriptor and storage,
    every other container and the free store. *)
Theorem copy_assign_commit_or_rollback s this other e s' :
  Part000.assign_copy this other s = Thrown e s' → s' = s.
Proof.
  unfold Part000.assign_copy. case_decide; [|done].
  unfold_monad. destruct s as [o m]. intros Hr.
  repeat (case_match; simplify_eq/=);
    match goal with
    | Hc : copy _ _ _ _ = Thrown _ _ |- _ =>
        apply copy_throw_keeps_heap in Hc; by subst
    | Hd : destroy _ _ _ = Thrown _ _ |- _ =>
        by apply destroy_never_throws in Hd
    end.
Qed.

(** The order of the steps in part_000: the copy is staged on the free store
    as it was, the old value is destroyed on the free store the copy left,
    and the target then takes the source's descriptor and the staged
    storage; when the staged copy throws, so does the assignment. *)
Lemma copy_assign_stages_first s this other f g :
  this ≠ other →
  objects s !! this = Some f →
  objects s !! other = Some g →
  match copy (Part000.table (desc g)) (storage g) indeterminate (memory s) with
  | Normal buf h1 =>
      match destroy (Part000.table (desc f)) (storage f) h1 with
      | Normal _ h2 =>
          Part000.assign_copy this other s
          = Normal tt {| objects := <[this := {| storage := buf; desc := desc g |}]>
                                      (objects s);
                         memory := h2 |}
      | _ => True
      end
  | Thrown e _ => Part000.assign_copy this other s = Thrown e s
  | Undefined => Part000.assign_copy this other s = Undefined
  end.
Proof.
  intros Hne Hf Hg. destruct s as [o m], f as [fs fd], g as [gs gd].
  destruct (copy _ _ _ _) as [buf h1|e h1|] eqn:Hc; simpl in Hc.
  - destruct (destroy _ _ _) as [x h2|e h2|] eqn:Hd; simpl in Hd; try done.
    go. rewrite ?insert_insert_eq. done.
  - go. by apply copy_throw_keeps_heap in Hc as ->.
  - by go.
Qed.

End CopyAssignment.

(** ** Moving *)

Section Moving.
Context `{Payloads}.

Lemma move_construct_moved s this other g :
  this ≠ other →
  objects s !! other = Some g →
  well_formed (memory s) g →
  (∀ T, desc g = of_type T → fits_small T = true → MoveConstructible T) →
  ∃ s1, Part000.function_move this other s = Normal tt s1 ∧ moved s s1 this other.
Proof.
  intros Hne Hg Hw Hmc. destruct s as [o m]. unfold moved.
  shape Hw.
  - eexists. split; [go; reflexivity|]. go. rewrite ?insert_insert_eq, ?delete_insert_eq.
    repeat split; try done. eexists; split; done.
  - destruct (fits_small_nothrow T v Hs) as (w & r & Hm).
    specialize (Hmc T Hd Hs).
    eexists. split; [go; reflexivity|]. go. rewrite ?insert_insert_eq, ?delete_insert_eq.
    repeat split; try done.
    + eexists; split; done. 
    + intros args. erewrite Hmc; eauto. by destruct (call_op T v args).
  - eexists. split; [go; reflexivity|]. go. rewrite ?insert_insert_eq, ?delete_insert_eq.
    repeat split; try done.
    + eexists; split; done.
    + intros args. by destruct (call_op T v args).
Qed.

Lemma move_assign_moved s this other f g :
  this ≠ other →
  objects s !! this = Some f →
  objects s !! other = Some g →
  well_formed (memory s) f →
  well_formed (memory s) g →
  separate f g →
  (∀ T, desc g = of_type T → fits_small T = true → MoveConstructible T) →
  ∃ s1, Part000.assign_move this other s = Normal tt s1 ∧ moved s s1 this other.
Proof.
  intros Hne Hf Hg Hwf Hwg Hsep Hmc. destruct s as [o m]. unfold moved.
  destruct f as [fs fd], g as [gs gd].
  shape Hwf; shape Hwg; simplify_eq/=.
  all: try (destruct (fits_small_nothrow T0 v0 Hs0) as (w & r & Hm)).
  all: try (destruct (fits_small_nothrow T v Hs) as (w & r & Hm)).
  all: eexists; (split; [go; reflexivity|]); go. 
  all: rewrite ?insert_insert_eq, ?delete_insert_eq; repeat split; try done.
  all: try (eexists; split; done).
  all: try (intros args; by destruct (call_op _ _ args)).
  all: try (intros args; specialize (Hmc _ eq_refl Hs _ _ _ args Hm) as ->;
            by destruct (call_op _ _ args)).
  all: try (intros args; specialize (Hmc _ eq_refl Hs0 _ _ _ args Hm) as ->;
            by destruct (call_op _ _ args)).
  assert (a ≠ a0) as Hna.
  { intros ->. apply (Hsep a0); unfold owner; cbn; by rewrite ?Hs, ?Hs0. }
  intros args. rewrite lookup_delete_ne, Ha0 by done. simp.
  by destruct (call_op _ _ args).
Qed.

(** C2.  Moving empties the source.  Let [a] be a container that is empty
    or holds a payload and, when the payload is small, one whose move
    constructor yields an object the call operator cannot tell from the
    original (a large payload changes hands as it is).  After move-constructing [b]
    from [a], and after move-assigning [a] to a container [c] that does not
    own [a]'s block, [a]'s [operator bool] answers [false], calling [a]
    throws [bad_function_call], [a] can be destroyed (its destructor leaves
    the free store alone), and the target's [operator bool] and call
    results are what [a]'s were before the move. *)
Theorem move_empties_source s a b c g :
  b ≠ a → c ≠ a →
  objects s !! a = Some g →
  well_formed (memory s) g →
  (∀ T, desc g = of_type T → fits_small T = true → MoveConstructible T) →
  (∃ s1, Part000.function_move b a s = Normal tt s1 ∧ moved s s1 b a) ∧
  (∀ f, objects s !! c = Some f → well_formed (memory s) f → separate f g →
        ∃ s1, Part000.assign_move c a s = Normal tt s1 ∧ moved s s1 c a).
Proof.
  intros Hb Hc Hg Hw Hmc. split.
  - by eapply move_construct_moved.
  - intros f Hf Hwf Hsep. by eapply move_assign_moved.
Qed.

End Moving.

(** ** Typed access *)

Section Target.
Context `{Payloads}.

Lemma target_part000 s this f T :
  objects s !! this = Some f →
  (desc f ≠ of_type T → Part000.target T this s = Normal nullptr s) ∧
  (∀ v, holding (memory s) f T v →
     ∃ ptr, Part000.target T this s = Normal ptr s ∧ ptr ≠ nullptr ∧
            peek T ptr s = Normal v s).
Proof.
  intros Hf. split.
  - intros Hd. unfold_part000; unfold_monad; simp.
    try case_decide; first [done | congruence].
  - intros v [Hd Hv].
    destruct (fits_small T) eqn:Hs.
    + exists (into_storage this). unfold_part000; unfold_monad; simp.
      rewrite Hs. simp. done.
    + destruct Hv as (a & Ha & Hv). exists (into_heap a).
      unfold_part000; unfold_monad; simp.
      rewrite Hs. simp. done.
Qed.

Lemma target_header1 s this f T :
  objects s !! this = Some f →
  Header1.target T this s = Part000.target T this s.
Proof.
  intros Hf. destruct s as [o m], f as [fs fd]. go.
  destruct fd as [|T']; go; [done|].
  destruct (decide (T = T')) as [->|Hn].
  - rewrite bool_decide_eq_true_2, decide_True by done. done.
  - rewrite bool_decide_eq_false_2, decide_False by congruence. done.
Qed.

Lemma target_header2 s this f T :
  objects s !! this = Some f →
  Header2.target T this s = Part000.target T this s.
Proof.
  intros Hf. destruct s as [o m], f as [fs fd]. go.
  destruct fd as [|T']; go; [done|].
  destruct (decide (T = T')) as [->|Hn].
  - rewrite bool_decide_eq_true_2, decide_True by done. done.
  - rewrite bool_decide_eq_false_2, decide_False by congruence. done.
Qed.


(** C5.  [target<T>()] looks at the descriptor only.  When the descriptor is
    not [T]'s (another type is held, or the container is empty) it returns
    [nullptr] without reading the storage.  When the container holds a [T]
    it returns a non-null pointer through which the held value is read.  So
    on a well-formed container the result is non-null exactly when the
    descriptor is [T]'s.  The two drafts of function.h, which test
    [operator bool] first, return the same as part_000. *)
Theorem target_exact s this f T :
  objects s !! this = Some f →
  (Header1.target T this s = Part000.target T this s ∧
   Header2.target T this s = Part000.target T this s) ∧
  (desc f ≠ Part000.get_descriptor T → Part000.target T this s = Normal nullptr s) ∧
  (∀ v, holding (memory s) f T v →
     ∃ ptr, Part000.target T this s = Normal ptr s ∧ ptr ≠ nullptr ∧
            peek T ptr s = Normal v s) ∧
  (well_formed (memory s) f →
     (∃ ptr, Part000.target T this s = Normal ptr s ∧ ptr ≠ nullptr)
     ↔ desc f = Part000.get_descriptor T).
Proof.
  intros Hf. destruct (target_part000 s this f T Hf) as [Hno Hyes].
  split; [eauto using target_header1, target_header2|].
  split; [done|]. split; [done|].
  intros Hw. split.
  - intros (ptr & Hp & Hn). destruct (decide (desc f = of_type T)); [done|].
    rewrite Hno in Hp by done. congruence.
  - intros Hd. destruct Hw as [He | (T' & v & Hh)].
    + unfold is_empty in He. unfold Part000.get_descriptor in Hd. congruence.
    + assert (T' = T) as ->.
      { destruct Hh as [Hd' _]. unfold Part000.get_descriptor in Hd. congruence. }
      destruct (Hyes v Hh) as (ptr & ? & ? & ?). eauto.
Qed.

End Target.

(** ** Copying *)

Section Copying.
Context `{Payloads}.

Lemma fresh_ne (h : heap) a c : h !! a = Some c → fresh (dom h) ≠ a.
Proof. intros Ha Hf. by rewrite <- Hf, fresh_lookup in Ha. Qed.

Lemma copy_independent_part000 s this other g T v v' :
  this ≠ other →
  objects s !! other = Some g →
  holding (memory s) g T v →
  copy_ctor T v = inr v' →
  CopyConstructible T →
  copy_independent Part000.function_copy Part000.operator_call Part000.target
    s this other g T v.
Proof.
  intros Hne Hg [Hd Hh] Hc Hcc. destruct s as [o m], g as [gs gd]. simplify_eq/=.
  unfold copy_independent.
  destruct (fits_small T) eqn:Hs; [|destruct Hh as (a & -> & Ha)]; simplify_eq/=.
  - eexists. split; [go; reflexivity|]. go. 
    repeat split; try done.
    + by rewrite Hs.
    + intros args. by destruct (call_op T v args).
    + intros args. rewrite (Hcc _ _ args Hc). by destruct (call_op T v args).
    + intros w. eexists _, _. split; [done|]. split; [go; reflexivity|]. go.
      split; intros args.
      * by destruct (call_op T w args).
      * rewrite (Hcc _ _ args Hc). by destruct (call_op T v args).
    + intros w. eexists _, _. split; [done|]. split; [go; reflexivity|]. go.
      split; intros args.
      * by destruct (call_op T w args).
      * by destruct (call_op T v args).
  - pose proof (fresh_ne _ _ _ Ha) as Hfr.
    eexists. split; [go; reflexivity|]. go. 
    repeat split; try done.
    + rewrite Hs. eexists. split; [done|]. by simplify_map_eq.
    + intros args. by destruct (call_op T v args).
    + intros args. rewrite (Hcc _ _ args Hc). by destruct (call_op T v args).
    + intros w. eexists _, _. split; [done|]. split; [go; reflexivity|]. go.
      split; intros args.
      * by destruct (call_op T w args).
      * rewrite (Hcc _ _ args Hc). by destruct (call_op T v args).
    + intros w. eexists _, _. split; [done|]. split; [go; reflexivity|]. go.
      split; intros args.
      * by destruct (call_op T w args).
      * by destruct (call_op T v args).
Qed.
Lemma copy_independent_header1 s this other g T v v' :
  this ≠ other →
  objects s !! other = Some g →
  holding (memory s) g T v →
  copy_ctor T v = inr v' →
  CopyConstructible T →
  copy_independent Header1.function_copy Header1.operator_call Header1.target
    s this other g T v.
Proof.
  intros Hne Hg [Hd Hh] Hc Hcc. destruct s as [o m], g as [gs gd]. simplify_eq/=.
  unfold copy_independent.
  pose proof (λ args, Hcc v v' args Hc) as Hv'.
  destruct (fits_small T) eqn:Hs; [|destruct Hh as (a & -> & Ha)]; simplify_eq/=.
  - eexists. split; [go; reflexivity|]. go.
    rewrite !bool_decide_eq_true_2 by done. go.
    repeat split; try done; try by answers.
    + by rewrite Hs.
    + intros w. eexists _, _. split; [done|]. split; [go; reflexivity|]. go.
      split; answers.
    + intros w. eexists _, _. split; [done|]. split; [go; reflexivity|]. go.
      split; answers.
  - pose proof (fresh_ne _ _ _ Ha) as Hfr.
    eexists. split; [go; reflexivity|]. go.
    rewrite !bool_decide_eq_true_2 by done. go.
    repeat split; try done; try by answers.
    + rewrite Hs. eexists. split; [done|]. by simplify_map_eq.
    + intros w. eexists _, _. split; [done|]. split; [go; reflexivity|]. go.
      split; answers.
    + intros w. eexists _, _. split; [done|]. split; [go; reflexivity|]. go.
      split; answers.
Qed.

(** C7.  Copy-constructing [this] from a container [other] that holds a [T]
    whose copy constructor succeeds with an object the call operator cannot
    tell from the original: [other] keeps its descriptor, storage and value
    and answers calls as before, [this] answers the same, and overwriting
    the payload of either container through its [target] pointer changes
    the answers of that container only.  This holds for part_000 and for
    the first draft of function.h, whose small-payload copy assigns the
    storage instead of running the copy constructor. *)
Theorem copy_is_independent s this other g T v v' :
  this ≠ other →
  objects s !! other = Some g →
  holding (memory s) g T v →
  copy_ctor T v = inr v' →
  CopyConstructible T →
  copy_independent Part000.function_copy Part000.operator_call Part000.target
    s this other g T v ∧
  copy_independent Header1.function_copy Header1.operator_call Header1.target
    s this other g T v.
Proof.
  intros. split.
  - by eapply copy_independent_part000.
  - by eapply copy_independent_header1.
Qed.

End Copying.

(** ** Ownership of large payloads *)

Create HintDb own.

Section Ownership.
Context `{Payloads}.

Lemma owner_Some f a :
  owner f = Some a ↔
  ∃ T, desc f = of_type T ∧ fits_small T = false ∧ storage f = heap_ptr a.
Proof.
  unfold owner. destruct f as [[|T' v|b] [|T]]; simpl; split;
    try (intros (? & ? & ? & ?)); try done.
  - destruct (fits_small T) eqn:Hs; intros; simplify_eq. by exists T.
  - simplify_eq. by rewrite H1.
Qed.

Lemma owner_empty x : owner {| storage := x; desc := empty_func |} = None.
Proof. by destruct x. Qed.

Lemma owner_inline T v d : owner {| storage := inline_obj T v; desc := d |} = None.
Proof. by destruct d. Qed.

Lemma owner_indeterminate d : owner {| storage := indeterminate; desc := d |} = None.
Proof. by destruct d. Qed.

Lemma owner_large T a :
  fits_small T = false → owner {| storage := heap_ptr a; desc := of_type T |} = Some a.
Proof. intros Hs. unfold owner. simpl. by rewrite Hs. Qed.

Lemma well_formed_owner (m : heap) f a :
  well_formed m f → owner f = Some a → ∃ T v, m !! a = Some (object T v).
Proof.
  intros Hw (T & Hd & Hs & Hp)%owner_Some.
  destruct Hw as [He | (T' & v & Hd' & Hh)]; [unfold is_empty in He; congruence|].
  assert (T' = T) as -> by congruence. rewrite Hs in Hh.
  destruct Hh as (b & Hb & Hm). exists T, v. congruence.
Qed.

Lemma well_formed_insert (m : heap) f a c :
  m !! a = None → well_formed m f → well_formed (<[a := c]> m) f.
Proof.
  intros Ha [He | (T & v & Hd & Hh)]; [by left|]. right. exists T, v.
  split; [done|]. destruct (fits_small T); [done|].
  destruct Hh as (b & Hb & Hm). exists b. split; [done|].
  rewrite lookup_insert_ne; [done|]. congruence.
Qed.

Lemma well_formed_delete (m : heap) f a :
  owner f ≠ Some a → well_formed m f → well_formed (delete a m) f.
Proof.
  intros Ho [He | (T & v & Hd & Hh)]; [by left|]. right. exists T, v.
  split; [done|]. destruct (fits_small T) eqn:Hs; [done|].
  destruct Hh as (b & Hb & Hm). exists b. split; [done|].
  rewrite lookup_delete_ne; [done|]. intros ->. apply Ho.
  apply owner_Some. eauto.
Qed.

Lemma well_formed_unowned (m m' : heap) f :
  owner f = None → well_formed m f → well_formed m' f.
Proof.
  intros Ho [He | (T & v & Hd & Hh)]; [by left|]. right. exists T, v.
  split; [done|]. destruct (fits_small T) eqn:Hs; [done|].
  destruct Hh as (b & Hb & Hm). 
  assert (owner f = Some b) by (apply owner_Some; eauto). congruence.
Qed.

Lemma consistent_put o m p f :
  consistent {| objects := o; memory := m |} →
  unowned o p → well_formed m f → owner f = None →
  consistent {| objects := <[p := f]> o; memory := m |}.
Proof.
  intros [Hw Hd Hb] Hp Hf Ho. split; simpl in *.
  - intros q g. rewrite lookup_insert. case_decide; intros; simplify_eq; eauto.
  - intros q r g g' a. rewrite !lookup_insert.
    repeat case_decide; intros; simplify_eq; eauto; congruence.
  - intros a Ha. destruct (Hb a Ha) as (q & g & Hq & Hg).
    exists q, g. split; [|done]. rewrite lookup_insert_ne; [done|].
    intros ->. specialize (Hp _ Hq). congruence.
Qed.

Lemma consistent_alloc o m p T a v :
  consistent {| objects := o; memory := m |} →
  unowned o p → m !! a = None → fits_small T = false →
  consistent {| objects := <[p := {| storage := heap_ptr a; desc := of_type T |}]> o;
                memory := <[a := object T v]> m |}.
Proof.
  intros [Hw Hd Hb] Hp Ha Hs. split; simpl in *.
  - intros q g. rewrite lookup_insert. case_decide; intros; simplify_eq.
    + right. exists T, v. split; [done|]. simpl. rewrite Hs.
      exists a. by rewrite lookup_insert_eq.
    + apply well_formed_insert; eauto.
  - assert (∀ q g, o !! q = Some g → owner g ≠ Some a) as Hfresh.
    { intros q g Hq Hg. destruct (well_formed_owner _ _ _ (Hw _ _ Hq) Hg) as (? & ? & ?).
      congruence. }
    intros q r g g' b. rewrite !lookup_insert.
    repeat case_decide; intros; simplify_eq; eauto.
    + rewrite owner_large in * by done. simplify_eq. by edestruct Hfresh.
    + rewrite owner_large in * by done. simplify_eq. by edestruct Hfresh.
  - intros b. rewrite lookup_insert. case_decide; intros Hb'; simplify_eq.
    + eexists p, _. rewrite lookup_insert_eq. split; [done|]. by apply owner_large.
    + destruct (Hb b Hb') as (q & g & Hq & Hg).
      exists q, g. split; [|done]. rewrite lookup_insert_ne; [done|].
      intros ->. specialize (Hp _ Hq). congruence.
Qed.

Lemma consistent_free o m p f f' a :
  consistent {| objects := o; memory := m |} →
  o !! p = Some f → owner f = Some a →
  owner f' = None → well_formed (delete a m) f' →
  consistent {| objects := <[p := f']> o; memory := delete a m |}.
Proof.
  intros [Hw Hd Hb] Hp Ho Ho' Hf'. split; simpl in *.
  - intros q g. rewrite lookup_insert. case_decide; intros; simplify_eq; [done|].
    apply well_formed_delete; eauto.
  - intros q r g g' b. rewrite !lookup_insert.
    repeat case_decide; intros; simplify_eq; eauto; congruence.
  - intros b. rewrite lookup_delete. case_decide; [by intros []|]. intros Hb'.
    destruct (Hb b Hb') as (q & g & Hq & Hg).
    exists q, g. split; [|done]. rewrite lookup_insert_ne; [done|].
    intros ->. congruence.
Qed.

Lemma consistent_transfer o m p q g a :
  consistent {| objects := o; memory := m |} →
  p ≠ q → unowned o p → o !! q = Some g → owner g = Some a →
  consistent {| objects := <[p := {| storage := heap_ptr a; desc := desc g |}]>
                             (<[q := {| storage := heap_ptr a; desc := empty_func |}]> o);
                memory := m |}.
Proof.
  intros [Hw Hd Hb] Hne Hp Hq Ho.
  pose proof Ho as (T & HT & Hs & Hst)%owner_Some.
  assert (owner {| storage := heap_ptr a; desc := desc g |} = Some a) as Ho'.
  { rewrite HT. by apply owner_large. }
  split; simpl in *.
  - intros r k. rewrite !lookup_insert. repeat case_decide; intros; simplify_eq; eauto.
    + specialize (Hw _ _ Hq). destruct g as [gs gd]; simpl in *. by subst.
    + by left.
  - intros r1 r2 k1 k2 b. rewrite !lookup_insert.
    repeat case_decide; intros; simplify_eq; eauto;
      rewrite ?owner_empty in *; simplify_eq.
    all: exfalso;
      match goal with
      | Hx : _ !! ?r = Some ?k, Hy : owner ?k = Some _, Hn : _ ≠ ?r |- _ =>
          apply Hn; symmetry; by apply (Hd r _ k _ _ Hx Hq Hy)
      end.
  - intros b Hb'. destruct (Hb b Hb') as (r & k & Hr & Hk).
    destruct (decide (r = q)) as [->|Hrq].
    + simplify_eq. eexists p, _. by rewrite lookup_insert_eq.
    + exists r, k. split; [|done].
      rewrite !lookup_insert_ne; [done|done|]. intros ->.
      specialize (Hp _ Hr). congruence.
Qed.

Lemma consistent_remove o m p :
  consistent {| objects := o; memory := m |} →
  unowned o p →
  consistent {| objects := delete p o; memory := m |}.
Proof.
  intros [Hw Hd Hb] Hp. split; simpl in *.
  - intros q g. rewrite lookup_delete. case_decide; [done|]. eauto.
  - intros q r g g' b. rewrite !lookup_delete. repeat case_decide; try done. eauto.
  - intros b Hb'. destruct (Hb b Hb') as (r & k & Hr & Hk).
    exists r, k. split; [|done]. rewrite lookup_delete_ne; [done|].
    intros ->. specialize (Hp _ Hr). congruence.
Qed.


Lemma unowned_None (o : gmap loc function) p : o !! p = None → unowned o p.
Proof. intros Hp f. congruence. Qed.

Lemma unowned_insert (o : gmap loc function) p f : owner f = None → unowned (<[p := f]> o) p.
Proof. intros Hf g. rewrite lookup_insert_eq. congruence. Qed.

Lemma unowned_lookup (o : gmap loc function) p f :
  o !! p = Some f → owner f = None → unowned o p.
Proof. intros Hp Hf g. congruence. Qed.

Lemma unowned_insert_ne (o : gmap loc function) p q f :
  p ≠ q → unowned o p → unowned (<[q := f]> o) p.
Proof. intros Hne Hp g. rewrite lookup_insert_ne by done. apply Hp. Qed.

Lemma insert_shadow (o : gmap loc function) p q x y z :
  p ≠ q → <[p := x]> (<[q := y]> (<[p := z]> o)) = <[p := x]> (<[q := y]> o).
Proof.
  intros Hne. rewrite (insert_insert_ne (<[p:=z]> o)) by done.
  by rewrite insert_insert_eq, insert_insert_ne.
Qed.

Ltac norm_maps :=
  repeat first [ rewrite insert_insert_eq
               | rewrite insert_shadow by done
               | rewrite delete_insert_eq
               | rewrite delete_id by done ].

#[local] Hint Resolve unowned_None unowned_insert unowned_lookup unowned_insert_ne
  owner_empty owner_inline owner_indeterminate owner_large : own.

Lemma default_consistent s this :
  consistent s → valid (Default this) s →
  ∃ s', final (exec (Default this) s) = Some s' ∧ consistent s'.
Proof.
  intros Hc Hv. destruct s as [o m]. simpl in Hv.
  eexists. split; [by go|].
  apply consistent_put; eauto with own. by left.
Qed.

Lemma from_value_consistent s T this val :
  consistent s → valid (FromValue T this val) s →
  ∃ s', final (exec (FromValue T this val) s) = Some s' ∧ consistent s'.
Proof.
  intros Hc Hv. destruct s as [o m]. simpl in Hv.
  destruct (move_ctor T val) as [e|[w r]] eqn:Hm; destruct (fits_small T) eqn:Hs.
  all: eexists; (split; [by go|]).
  all: norm_maps; try done.
  - apply consistent_put; eauto with own. right. exists T, w. split; [done|]. simpl. by rewrite Hs.
  - apply consistent_alloc; eauto using fresh_lookup with own.
Qed.


Lemma holding_small (m : heap) T v :
  fits_small T = true →
  well_formed m {| storage := inline_obj T v; desc := of_type T |}.
Proof. intros Hs. right. exists T, v. split; [done|]. simpl. by rewrite Hs. Qed.

Lemma empty_well_formed (m : heap) x :
  well_formed m {| storage := x; desc := empty_func |}.
Proof. by left. Qed.

#[local] Hint Resolve holding_small empty_well_formed fresh_lookup : own.

Lemma copy_construct_consistent s this other :
  consistent s → valid (CopyConstruct this other) s →
  ∃ s', final (exec (CopyConstruct this other) s) = Some s' ∧ consistent s'.
Proof.
  intros Hc [Hthis [[gs gd] Hg]]. destruct s as [o m]. simpl in *.
  assert (this ≠ other) as Hne by congruence.
  pose proof (objects_well_formed _ Hc _ _ Hg) as Hw. simpl in Hw.
  shape Hw; simplify_eq/=.
  - eexists; (split; [by go|]).
    norm_maps. apply consistent_put; eauto with own.
  - destruct (copy_ctor T v) as [e|v'] eqn:Hcp.
    all: eexists; (split; [by go|]).
    all: norm_maps; try done.
    apply consistent_put; eauto with own.
  - destruct (copy_ctor T v) as [e|v'] eqn:Hcp.
    all: eexists; (split; [by go|]).
    all: norm_maps; try done.
    apply consistent_alloc; eauto with own.
Qed.

Lemma move_construct_consistent s this other :
  consistent s → valid (MoveConstruct this other) s →
  ∃ s', final (exec (MoveConstruct this other) s) = Some s' ∧ consistent s'.
Proof.
  intros Hc [Hthis [[gs gd] Hg]]. destruct s as [o m]. simpl in *.
  assert (this ≠ other) as Hne by congruence.
  pose proof (objects_well_formed _ Hc _ _ Hg) as Hw. simpl in Hw.
  shape Hw; simplify_eq/=.
  - eexists; (split; [by go|]).
    norm_maps.
    apply consistent_put; eauto 6 with own.
    apply consistent_put; eauto with own.
  - destruct (fits_small_nothrow T v Hs) as (w & r & Hm).
    eexists; (split; [by go|]).
    norm_maps.
    apply consistent_put; eauto 6 with own.
    apply consistent_put; eauto with own.
  - eexists; (split; [by go|]).
    norm_maps.
    apply (consistent_transfer o m this other {| storage := heap_ptr a; desc := of_type T |} a);
      eauto with own.
Qed.

Lemma destruct_consistent s this :
  consistent s → valid (Destruct this) s →
  ∃ s', final (exec (Destruct this) s) = Some s' ∧ consistent s'.
Proof.
  intros Hc [[fs fd] Hf]. destruct s as [o m]. simpl in *.
  pose proof (objects_well_formed _ Hc _ _ Hf) as Hw. simpl in Hw.
  shape Hw; simplify_eq/=.
  all: eexists; (split; [by go|]).
  all: norm_maps.
  - apply consistent_remove; eauto with own.
  - apply consistent_remove; eauto with own.
  - rewrite <- (delete_insert_eq o this {| storage := heap_ptr a; desc := empty_func |}).
    apply consistent_remove; eauto with own.
    eapply consistent_free; eauto with own.
Qed.


Lemma consistent_free_alloc o m p f a T b v :
  consistent {| objects := o; memory := m |} →
  o !! p = Some f → owner f = Some a →
  m !! b = None → fits_small T = false →
  consistent {| objects := <[p := {| storage := heap_ptr b; desc := of_type T |}]> o;
                memory := delete a (<[b := object T v]> m) |}.
Proof.
  intros Hc Hp Ho Hb Hs.
  destruct (well_formed_owner _ _ _ (objects_well_formed _ Hc _ _ Hp) Ho)
    as (T' & v' & Ha).
  simpl in Ha. assert (a ≠ b) as Hne by (intros ->; congruence).
  rewrite delete_insert_ne by done.
  rewrite <- (insert_insert_eq o p _ {| storage := heap_ptr a; desc := empty_func |}).
  apply consistent_alloc; eauto with own.
  - eapply consistent_free; eauto with own.
  - by rewrite lookup_delete_ne.
Qed.

Lemma copy_assign_consistent s this other :
  consistent s → valid (CopyAssign this other) s →
  ∃ s', final (exec (CopyAssign this other) s) = Some s' ∧ consistent s'.
Proof.
  intros Hc [[[fs fd] Hf] [[gs gd] Hg]].
  destruct (decide (this = other)) as [->|Hne].
  { exists s. split; [|done]. simpl.
    by rewrite assign_copy_self. }
  destruct s as [o m]. simpl in *.
  pose proof (objects_well_formed _ Hc _ _ Hf) as Hwf.
  pose proof (objects_well_formed _ Hc _ _ Hg) as Hwg. simpl in *.
  assert (separate {| storage := fs; desc := fd |} {| storage := gs; desc := gd |}) as Hsep.
  { intros a Ha Hb. apply Hne. eapply (owners_distinct _ Hc); eauto. }
  shape Hwf; shape Hwg; simplify_eq/=.
  all: try (destruct (copy_ctor T v) as [e|v'] eqn:Hcp).
  all: try (destruct (copy_ctor T0 v0) as [e0|v0'] eqn:Hcp0).
  all: try (pose proof (fresh_ne _ _ _ Ha) as Hfr).
  all: try (pose proof (fresh_ne _ _ _ Ha0) as Hfr0).
  all: eexists; (split; [by go|]).
  all: norm_maps; try done.
  all: try (apply consistent_put; by eauto with own).
  all: try (apply consistent_alloc; by eauto with own).
  all: try (eapply consistent_free; by eauto with own).
  all: eapply consistent_free_alloc; eauto with own.
Qed.

Lemma consistent_transfer_flip o m p q g a :
  consistent {| objects := o; memory := m |} →
  p ≠ q → unowned o p → o !! q = Some g → owner g = Some a →
  consistent {| objects := <[q := {| storage := heap_ptr a; desc := empty_func |}]>
                             (<[p := {| storage := heap_ptr a; desc := desc g |}]> o);
                memory := m |}.
Proof.
  intros. rewrite insert_insert_ne by done. by apply consistent_transfer.
Qed.

Lemma consistent_free_transfer o m p q f g a b :
  consistent {| objects := o; memory := m |} →
  p ≠ q → o !! p = Some f → owner f = Some a →
  o !! q = Some g → owner g = Some b →
  consistent {| objects := <[q := {| storage := heap_ptr b; desc := empty_func |}]>
                             (<[p := {| storage := heap_ptr b; desc := desc g |}]> o);
                memory := delete a m |}.
Proof.
  intros Hc Hne Hp Ho Hq Hg.
  rewrite <- (insert_insert_eq o p _ {| storage := heap_ptr a; desc := empty_func |}).
  apply consistent_transfer_flip; eauto with own.
  - eapply consistent_free; eauto with own.
  - by rewrite lookup_insert_ne.
Qed.

Lemma move_assign_consistent s this other :
  consistent s → valid (MoveAssign this other) s →
  ∃ s', final (exec (MoveAssign this other) s) = Some s' ∧ consistent s'.
Proof.
  intros Hc [[[fs fd] Hf] [[gs gd] Hg]].
  destruct (decide (this = other)) as [->|Hne].
  { exists s. split; [|done]. simpl.
    by rewrite assign_move_self. }
  destruct s as [o m]. simpl in *.
  pose proof (objects_well_formed _ Hc _ _ Hf) as Hwf.
  pose proof (objects_well_formed _ Hc _ _ Hg) as Hwg. simpl in *.
  assert (separate {| storage := fs; desc := fd |} {| storage := gs; desc := gd |}) as Hsep.
  { intros a Ha Hb. apply Hne. eapply (owners_distinct _ Hc); eauto. }
  shape Hwf; shape Hwg; simplify_eq/=.
  all: try (destruct (fits_small_nothrow T v Hs) as (w & r & Hm)).
  all: try (destruct (fits_small_nothrow T0 v0 Hs0) as (w0 & r0 & Hm0)).
  all: try (assert (a ≠ a0) by
              (intros ->; apply (Hsep a0); by apply owner_large)).
  all: eexists; (split; [by go|]).
  all: norm_maps; try done.
  all: try (apply consistent_put; [apply consistent_put|..]; by eauto 6 with own).
  all: try match goal with
            | Hg : _ !! ?q = Some ?g, Hf : _ !! ?p = Some _ |- _ =>
                apply (consistent_transfer_flip _ _ p q g); by eauto with own
            end.
  all: try (apply consistent_put; [eapply consistent_free|..]; by eauto 6 with own).
  all: try match goal with
            | Hg : _ !! ?q = Some ?g, Hf : _ !! ?p = Some ?f |- _ =>
                eapply (consistent_free_transfer _ _ p q f g); by eauto with own
            end.
Qed.

Lemma step_consistent s o :
  consistent s → valid o s →
  ∃ s', final (exec o s) = Some s' ∧ consistent s'.
Proof.
  destruct o; eauto using default_consistent, from_value_consistent,
    copy_construct_consistent, move_construct_consistent,
    copy_assign_consistent, move_assign_consistent, destruct_consistent.
Qed.

Lemma boot_consistent : consistent {| objects := ∅; memory := ∅ |}.
Proof.
  split; simpl.
  - intros p f. by rewrite lookup_empty.
  - intros p q f g a. by rewrite lookup_empty.
  - intros a. rewrite lookup_empty. by intros [].
Qed.

Lemma reachable_consistent s : reachable s → consistent s.
Proof.
  induction 1 as [|s o s' _ IH Hv Hf]; [apply boot_consistent|].
  destruct (step_consistent s o IH Hv) as (s'' & Hf' & Hc). congruence.
Qed.

Lemma consistent_no_leak s : consistent s → objects s = ∅ → memory s = ∅.
Proof.
  intros Hc Ho. apply map_empty. intros a.
  destruct (memory s !! a) eqn:Ha; [|done].
  destruct (blocks_owned _ Hc a) as (p & f & Hp & _); [eauto|].
  rewrite Ho, lookup_empty in Hp. done.
Qed.

(** What the operations do to the block [a] owned by the container at
    [other]: a copy leaves it with [other] and gives the new container a
    block that was not allocated before, a move hands the same block to the
    new container without touching the free store, and the destructor
    releases it. *)
Lemma ownership_accounting s this other g a :
  consistent s →
  objects s !! this = None →
  objects s !! other = Some g →
  owner g = Some a →
  (∀ s1, Part000.function_copy this other s = Normal tt s1 →
     ∃ b c, memory s !! b = None ∧ memory s1 = <[b := c]> (memory s) ∧
            objects s1 !! this = Some {| storage := heap_ptr b; desc := desc g |} ∧
            owner {| storage := heap_ptr b; desc := desc g |} = Some b ∧
            objects s1 !! other = Some g) ∧
  (∃ s1, Part000.function_move this other s = Normal tt s1 ∧
         memory s1 = memory s ∧
         objects s1 !! this = Some {| storage := heap_ptr a; desc := desc g |} ∧
         owner {| storage := heap_ptr a; desc := desc g |} = Some a ∧
         objects s1 !! other = Some {| storage := heap_ptr a; desc := empty_func |}) ∧
  (∃ s1, Part000.function_dtor other s = Normal tt s1 ∧
         is_Some (memory s !! a) ∧
         memory s1 = delete a (memory s) ∧
         objects s1 = delete other (objects s)).
Proof.
  intros Hc Hthis Hg Ho.
  assert (this ≠ other) as Hne by congruence.
  pose proof Ho as (T & HT & Hs & Hst)%owner_Some.
  destruct (well_formed_owner _ _ _ (objects_well_formed _ Hc _ _ Hg) Ho)
    as (T' & v & Ha).
  pose proof (objects_well_formed _ Hc _ _ Hg) as [He|(T'' & v' & Hd & Hh)];
    [unfold is_empty in He; congruence|].
  assert (T'' = T) as -> by congruence. rewrite Hs in Hh.
  destruct Hh as (a' & Hp' & Ha'). assert (a' = a) as -> by congruence.
  assert (T' = T ∧ v' = v) as [-> ->] by (split; congruence). clear Ha'.
  destruct s as [o m], g as [gs gd]. simplify_eq/=.
  pose proof (fresh_ne _ _ _ Ha) as Hfr.
  repeat split.
  - intros s1. destruct (copy_ctor T v) as [e|v'] eqn:Hcp; go; [done|].
    intros [= <-]. eexists _, _. split; [apply fresh_lookup|].
    repeat split; simpl; by simplify_map_eq.
  - eexists. split; [by go|]. go. repeat split; by simplify_map_eq.
  - eexists. split; [by go|]. go. repeat split; eauto.
    by rewrite delete_insert_eq.
Qed.

(** C8.  In every state reached from the empty machine by a chain of
    constructions, copies, moves, assignments and destructions (completed or
    interrupted by an exception): every container bound to a large type
    points to a live block of the free store, no two containers own the same
    block, and every block is owned by a container, so once every container
    is destroyed the free store is empty.  No further valid operation has
    undefined behaviour (no block is released twice or used after release)
    and it leads to such a state again.  A copy gives the new container a
    block that was not allocated before and leaves the source its own, a
    move hands the source's block over without touching the free store, and
    the destructor releases the block. *)
Theorem exclusive_ownership s :
  reachable s →
  consistent s ∧
  (objects s = ∅ → memory s = ∅) ∧
  (∀ o, valid o s → ∃ s', final (exec o s) = Some s' ∧ reachable s') ∧
  (∀ this other g a,
     objects s !! this = None →
     objects s !! other = Some g →
     owner g = Some a →
     (∀ s1, Part000.function_copy this other s = Normal tt s1 →
        ∃ b c, memory s !! b = None ∧ memory s1 = <[b := c]> (memory s) ∧
               objects s1 !! this = Some {| storage := heap_ptr b; desc := desc g |} ∧
               owner {| storage := heap_ptr b; desc := desc g |} = Some b ∧
               objects s1 !! other = Some g) ∧
     (∃ s1, Part000.function_move this other s = Normal tt s1 ∧
            memory s1 = memory s ∧
            objects s1 !! this = Some {| storage := heap_ptr a; desc := desc g |} ∧
            owner {| storage := heap_ptr a; desc := desc g |} = Some a ∧
            objects s1 !! other = Some {| storage := heap_ptr a; desc := empty_func |}) ∧
     (∃ s1, Part000.function_dtor other s = Normal tt s1 ∧
            is_Some (memory s !! a) ∧
            memory s1 = delete a (memory s) ∧
            objects s1 = delete other (objects s))).
Proof.
  intros Hr. pose proof (reachable_consistent s Hr) as Hc.
  split; [done|]. split; [by apply consistent_no_leak|]. split.
  - intros o Hv. destruct (step_consistent s o Hc Hv) as (s' & Hf & _).
    exists s'. split; [done|]. by eapply reach_step.
  - intros this other g a. by apply ownership_accounting.
Qed.

End Ownership.

(** * Further properties of the code *)

Ltac tidy_maps :=
  repeat first [ rewrite insert_insert_eq
               | rewrite insert_shadow by done
               | rewrite delete_insert_eq
               | rewrite delete_id by done ].

(** ** Calling and querying *)

Section Calling.
Context `{Payloads}.

Lemma invoke_tables d src args h :
  invoke (Header1.table d) src args h = invoke (Part000.table d) src args h ∧
  invoke (Header2.table d) src args h = invoke (Part000.table d) src args h.
Proof. by destruct d. Qed.

(** Calling a container forwards to the payload's call operator and leaves
    the machine as it was: an empty container throws [bad_function_call], a
    container holding a [T] in state [v] returns what [T]'s call operator
    returns on [v] or throws what it throws.  [operator bool] tells whether
    the descriptor is the empty one.  The call operators of both drafts of
    function.h do the same as part_000's. *)
Theorem call_forwards s this f args :
  objects s !! this = Some f →
  (is_empty f → Part000.operator_call this args s = Thrown bad_function_call s) ∧
  (∀ T v, holding (memory s) f T v →
     Part000.operator_call this args s
     = match call_op T v args with
       | inl e => Thrown e s
       | inr r => Normal r s
       end) ∧
  Part000.operator_bool this s = Normal (bool_decide (desc f ≠ empty_func)) s ∧
  Header1.operator_call this args s = Part000.operator_call this args s ∧
  Header2.operator_call this args s = Part000.operator_call this args s.
Proof.
  intros Hf. destruct s as [o m], f as [fs fd]. repeat split.
  - unfold is_empty. simpl. intros ->. by go.
  - intros T v [Hd Hh]. simpl in *. subst fd.
    destruct (fits_small T) eqn:Hs; [|destruct Hh as (a & -> & Ha)]; subst; go;
      by destruct (call_op T v args).
  - go. f_equal. apply bool_decide_ext.
    split; intros Hn Hd; by apply Hn.
  - go. by rewrite (proj1 (invoke_tables fd fs args m)).
  - go. by rewrite (proj2 (invoke_tables fd fs args m)).
Qed.

(** A container constructed from a value of type [T] (whose move into the
    container succeeds, leaving the payload in state [w]) answers [true] to
    [operator bool], answers calls as [w] does, hands out through
    [target<T>] a non-null pointer to [w], and answers [nullptr] to
    [target<T'>] for every other type. *)
Theorem construct_then_query T this val s w r :
  move_ctor T val = inr (w, r) →
  ∃ s', Part000.function_from T this val s = Normal tt s' ∧
        Part000.operator_bool this s' = Normal true s' ∧
        (∀ args, observe (Part000.operator_call this args s') = result (call_op T w args)) ∧
        (∃ ptr, Part000.target T this s' = Normal ptr s' ∧ ptr ≠ nullptr ∧
                peek T ptr s' = Normal w s') ∧
        (∀ T', T' ≠ T → Part000.target T' this s' = Normal nullptr s').
Proof.
  intros Hm. destruct s as [o m]. destruct (fits_small T) eqn:Hs.
  - eexists. split; [go; reflexivity|]. go. repeat split; try done.
    + answers.
    + eexists. split; [reflexivity|]. split; [done|]. by go.
    + intros T' Hne. rewrite decide_False by congruence. done.
  - eexists. split; [go; reflexivity|]. go. repeat split; try done.
    + answers.
    + eexists. split; [reflexivity|]. split; [done|]. by go.
    + intros T' Hne. rewrite decide_False by congruence. done.
Qed.


End Calling.

(** ** Constructors that fail *)

Section Failure.
Context `{Payloads}.

Lemma move_never_throws d src dst h e h' :
  move (Part000.table d) src dst h ≠ Thrown e h'.
Proof.
  destruct d as [|T]; [done|]. cbn. destruct (fits_small T) eqn:Hs.
  - unfold_monad. intros Hr.
    repeat (case_match; simplify_eq/=).
    match goal with
    | Hm : move_ctor _ ?v = inl _ |- _ =>
        destruct (fits_small_nothrow T v Hs) as (? & ? & ?); congruence
    end.
  - unfold_monad. intros Hr. repeat (case_match; simplify_eq/=).
Qed.

(** Constructors of part_000 on storage where no container lives: when the
    constructor from a value or the copy constructor throws, the machine is
    exactly as before (no container, no block), and the constructor from a
    value throws only what the payload's move constructor threw; the move
    constructor and the default constructor never throw. *)
Theorem failed_construction_leaves_no_trace s this :
  objects s !! this = None →
  (∀ T val e s', Part000.function_from T this val s = Thrown e s' →
                 s' = s ∧ move_ctor T val = inl e) ∧
  (∀ other e s', Part000.function_copy this other s = Thrown e s' → s' = s) ∧
  (∀ other e s', Part000.function_move this other s = Thrown e s' → False) ∧
  (∀ e s', Part000.function_default this s = Thrown e s' → False).
Proof.
  intros Hthis. destruct s as [o m]. simpl in Hthis.
  split; [|split; [|split]].
  - intros T val e s'. unfold Part000.function_from. unfold_monad. intros Hr.
    split; repeat (case_match; simplify_eq/=); first [done | by tidy_maps].
  - intros other e s'. unfold Part000.function_copy. unfold_monad. intros Hr.
    repeat (case_match; simplify_eq/=).
    match goal with
    | Hc : copy _ _ _ _ = Thrown _ _ |- _ => apply copy_throw_keeps_heap in Hc as ->
    end. by tidy_maps.
  - intros other e s'. unfold Part000.function_move. unfold_monad. intros Hr.
    repeat (case_match; simplify_eq/=).
    match goal with
    | Hc : move _ _ _ _ = Thrown _ _ |- _ => by apply move_never_throws in Hc
    end.
  - intros e s'. unfold Part000.function_default. unfold_monad. done.
Qed.

End Failure.

(** ** Copy assignment that succeeds, and round trips *)

Section Commit.
Context `{Payloads}.

(** A copy assignment of part_000 that succeeds, between two well-formed
    containers that do not own the same block.  From an empty source the
    target becomes empty; from a source holding a [T] whose copy succeeds
    with [v'], the target holds [v'] and answers calls as [v'] does while
    the source still holds its value.  Either way the block the target
    owned before is released, and nothing else in the object map changes. *)
Theorem copy_assign_commits s this other f g :
  this ≠ other →
  objects s !! this = Some f →
  objects s !! other = Some g →
  well_formed (memory s) f →
  separate f g →
  (is_empty g →
     ∃ s1 x, Part000.assign_copy this other s = Normal tt s1 ∧
             objects s1 = <[this := {| storage := x; desc := empty_func |}]> (objects s) ∧
             (∀ a, owner f = Some a → memory s1 = delete a (memory s)) ∧
             (owner f = None → memory s1 = memory s)) ∧
  (∀ T v v', holding (memory s) g T v → copy_ctor T v = inr v' →
     ∃ s1 f1, Part000.assign_copy this other s = Normal tt s1 ∧
              objects s1 = <[this := f1]> (objects s) ∧
              holding (memory s1) f1 T v' ∧
              holding (memory s1) g T v ∧
              (∀ a, owner f = Some a → memory s1 !! a = None) ∧
              (∀ args, observe (Part000.operator_call this args s1)
                       = result (call_op T v' args))).
Proof.
  intros Hne Hf Hg Hwf Hsep. destruct s as [o m], f as [fs fd], g as [gs gd].
  simpl in *. split.
  - unfold is_empty. simpl. intros ->.
    shape Hwf; simplify_eq/=.
    all: eexists _, _; (split; [go; reflexivity|]); go; tidy_maps.
    all: repeat split; try done.
    all: try (intros ? ?; simplify_eq; done).
    all: try (by rewrite Hs).
  - intros T v v' [Hd Hh] Hcp. simpl in *. subst gd.
    destruct (fits_small T) eqn:Hs; [|destruct Hh as (b & -> & Hb)]; simplify_eq/=.
    + shape Hwf; simplify_eq/=.
      all: eexists _, _; (split; [go; reflexivity|]); go; tidy_maps.
      all: repeat split; try done; try (by rewrite ?Hs, ?Hs0); try by answers.
      all: try (intros ? ?; simplify_eq; by rewrite ?lookup_delete_eq).
      all: try (rewrite Hs0; intros ? ?; simplify_eq; by rewrite ?lookup_delete_eq).
    + pose proof (fresh_ne _ _ _ Hb) as Hfr.
      shape Hwf; simplify_eq/=.
      all: try (pose proof (fresh_ne _ _ _ Ha) as Hfr').
      all: try (assert (a ≠ b) by
                  (intros ->; apply (Hsep b); unfold owner; simpl; by rewrite ?Hs, ?Hs0)).
      all: eexists _, _; (split; [go; reflexivity|]); go; tidy_maps.
      all: repeat split; try done; try by answers.
      all: try (rewrite ?Hs, ?Hs0; eexists; split; [done|]; by simplify_map_eq).
      all: try (intros ? ?; simplify_eq; by simplify_map_eq).
      all: try (rewrite ?Hs, ?Hs0; intros ? ?; simplify_eq; by simplify_map_eq).
Qed.

(** Round trip on part_000: copy a container holding a [T], move the copy
    into a third container and call that one: the answer is the answer of
    the original, provided the copy succeeds and [T]'s copy constructor (and,
    for a small [T], its move constructor) preserves the answers of the call
    operator. *)
Theorem copy_then_move_round_trip s a b c g T v v' args :
  a ≠ b → a ≠ c → b ≠ c →
  objects s !! a = Some g →
  holding (memory s) g T v →
  copy_ctor T v = inr v' →
  CopyConstructible T →
  (fits_small T = true → MoveConstructible T) →
  observe ((Part000.function_copy b a;; Part000.function_move c b;;
            Part000.operator_call c args) s)
  = observe (Part000.operator_call a args s).
Proof.
  intros Hab Hac Hbc Hg [Hd Hh] Hcp Hcc Hmc.
  destruct s as [o m], g as [gs gd]. simpl in *. subst gd.
  pose proof (λ x, Hcc v v' x Hcp) as Hv'.
  destruct (fits_small T) eqn:Hs; [|destruct Hh as (p & -> & Hp)]; simplify_eq/=.
  - destruct (fits_small_nothrow T v' Hs) as (w & r & Hm).
    pose proof (λ x, Hmc eq_refl v' w r x Hm) as Hw.
    go. rewrite Hw, Hv'. by destruct (call_op T v args).
  - pose proof (fresh_ne _ _ _ Hp) as Hfr.
    go. rewrite Hv'. by destruct (call_op T v args).
Qed.


End Commit.

(** ** The descriptor's destroy *)

Section Destroy.
Context `{Payloads}.

(** The descriptor's [destroy] may run once per value: running it again on
    what it left is undefined (the in-place object is gone, the block is
    released).  For a large [T], after [move] the source and the destination
    hold the same pointer, so destroying both through [T]'s descriptor is
    undefined as well; this is why the caller rebinds the source to the
    empty descriptor. *)
Theorem destroy_is_not_idempotent T src dst h src' h' :
  destroy (Part000.descriptor T) src h = Normal src' h' →
  destroy (Part000.descriptor T) src' h' = Undefined ∧
  (fits_small T = false →
   ∀ sd h1, move (Part000.descriptor T) src dst h = Normal sd h1 →
   ∀ x h2, destroy (Part000.descriptor T) sd.2 h1 = Normal x h2 →
           destroy (Part000.descriptor T) sd.1 h2 = Undefined).
Proof.
  cbn. destruct (fits_small T) eqn:Hs; unfold_monad.
  - intros Hd. split; [|done].
    repeat (case_match; simplify_eq/=); done.
  - intros Hd. split.
    + repeat (case_match; simplify_eq/=); try done.
      all: rewrite lookup_delete_eq in *; simplify_eq.
    + intros _ sd h1 Hmv x h2 Hd2.
      repeat (case_match; simplify_eq/=); try done.
      all: rewrite lookup_delete_eq in *; simplify_eq.
Qed.

(** The size test is strict: a payload at least as large as the storage
    (a function pointer, say) is classified large whatever its other traits,
    and the constructor from a value of all three drafts allocates one new
    block for it and stores the address. *)
Theorem pointer_sized_payload_is_large T this val s w r :
  (sizeof_storage ≤ sizeof T)%N →
  move_ctor T val = inr (w, r) →
  fits_small T = false ∧
  ∃ a, memory s !! a = None ∧
       let s' := {| objects := <[this := {| storage := heap_ptr a; desc := of_type T |}]>
                                 (objects s);
                    memory := <[a := object T w]> (memory s) |} in
       Part000.function_from T this val s = Normal tt s' ∧
       Header1.function_from T this val s = Normal tt s' ∧
       Header2.function_from T this val s = Normal tt s'.
Proof.
  intros Hsz Hm.
  assert ((sizeof T <? sizeof_storage)%N = false) as Hlt by by apply N.ltb_ge.
  assert (fits_small T = false) as Hs by (unfold fits_small; by rewrite Hlt).
  split; [done|]. exists (fresh (dom (memory s))). split; [apply fresh_lookup|].
  destruct s as [o m]. go. rewrite Hlt. go. by tidy_maps.
Qed.

End Destroy.

(** ** The first draft of function.h *)

Section FirstDraft.
Context `{Payloads}.

(** The first draft of function.h never releases the block of a large
    payload.  Its destructor runs the payload's destructor and leaves the
    block allocated; its move constructor allocates a second block for the
    moved value and leaves the first, with the moved-from object, behind a
    source that is now empty. *)
Theorem header1_never_releases_large s this other T a v :
  fits_small T = false →
  this ≠ other →
  objects s !! this = Some {| storage := heap_ptr a; desc := of_type T |} →
  memory s !! a = Some (object T v) →
  Header1.function_dtor this s
  = Normal tt {| objects := delete this (objects s);
                 memory := <[a := raw_memory]> (memory s) |} ∧
  (∀ w r, move_ctor T v = inr (w, r) →
     ∃ b, memory s !! b = None ∧
          Header1.function_move other this s
          = Normal tt {| objects :=
                           <[other := {| storage := heap_ptr b; desc := of_type T |}]>
                             (<[this := {| storage := heap_ptr a; desc := empty_func |}]>
                                (objects s));
                         memory := <[b := object T w]>
                                     (<[a := object T r]> (memory s)) |}).
Proof.
  intros Hs Hne Hf Ha. destruct s as [o m]. simpl in *. split.
  - go. by tidy_maps.
  - intros w r Hm. exists (fresh (dom (<[a := object T r]> m))). split.
    + pose proof (fresh_lookup (<[a := object T r]> m)) as Hfr.
      rewrite lookup_insert in Hfr. by case_decide.
    + go. by tidy_maps.
Qed.


End FirstDraft.

(** ** The second draft of function.h *)

Section SecondDraft.
Context `{Payloads}.

#[local] Hint Resolve unowned_None unowned_insert unowned_lookup unowned_insert_ne
  owner_empty owner_inline owner_indeterminate owner_large
  holding_small empty_well_formed fresh_lookup : own.

Lemma copy_throw_keeps_heap_header2 d src dst h e h' :
  copy (Header2.table d) src dst h = Thrown e h' → h' = h.
Proof.
  destruct d as [|T]; [done|]. cbn. unfold_monad.
  intros Hr. repeat (case_match; simplify_eq/=); done.
Qed.

Lemma destroy_never_throws_header2 d src h e h' :
  destroy (Header2.table d) src h ≠ Thrown e h'.
Proof.
  destruct d as [|T]; [done|]. cbn. unfold_monad.
  intros Hr. repeat (case_match; simplify_eq/=); done.
Qed.

(** The second draft of function.h stages the copy as part_000 does:
    whenever its copy assignment throws, the machine is exactly as it was
    before the call. *)
Theorem header2_copy_assign_rolls_back s this other e s' :
  Header2.assign_copy this other s = Thrown e s' → s' = s.
Proof.
  unfold Header2.assign_copy. case_decide; [|done].
  unfold_monad. destruct s as [o m]. intros Hr.
  repeat (case_match; simplify_eq/=);
    match goal with
    | Hc : copy _ _ _ _ = Thrown _ _ |- _ =>
        apply copy_throw_keeps_heap_header2 in Hc; by subst
    | Hd : destroy _ _ _ = Thrown _ _ |- _ =>
        by apply destroy_never_throws_header2 in Hd
    end.
Qed.


Lemma assign_copy_self_header2 (this : loc) (s : machine) :
  Header2.assign_copy this this s = Normal tt s.
Proof. unfold Header2.assign_copy. by destruct (decide (this ≠ this)). Qed.

Lemma assign_move_self_header2 (this : loc) (s : machine) :
  Header2.assign_move this this s = Normal tt s.
Proof.
  unfold Header2.assign_move, noexcept, try_catch.
  by destruct (decide (this ≠ this)).
Qed.

(** Every valid operation of the second draft of function.h keeps the
    ownership invariant and is never undefined. *)
Lemma step_consistent_header2 s o :
  consistent s → valid o s →
  ∃ s', final (exec_header2 o s) = Some s' ∧ consistent s'.
Proof.
  intros Hc Hv. destruct o as [this|T this val|this other|this other
                              |this other|this other|this].
  - (* default *)
    destruct s as [o m]. simpl in Hv. eexists. split; [by go|].
    apply consistent_put; eauto with own.
  - (* from a value *)
    destruct s as [o m]. simpl in Hv.
    destruct (move_ctor T val) as [e|[w r]] eqn:Hm; destruct (fits_small T) eqn:Hs.
    all: eexists; (split; [by go|]).
    all: tidy_maps; try done.
    + apply consistent_put; eauto with own.
    + apply consistent_alloc; eauto with own.
  - (* copy construction *)
    destruct Hv as [Hthis [[gs gd] Hg]]. destruct s as [o m]. simpl in *.
    assert (this ≠ other) as Hne by congruence.
    pose proof (objects_well_formed _ Hc _ _ Hg) as Hw. simpl in Hw.
    shape Hw; simplify_eq/=.
    all: try (destruct (copy_ctor T v) as [e|v'] eqn:Hcp).
    all: eexists; (split; [by go|]).
    all: tidy_maps; try done.
    all: try (apply consistent_put; by eauto with own).
    all: try (apply consistent_alloc; by eauto with own).
  - (* move construction *)
    destruct Hv as [Hthis [[gs gd] Hg]]. destruct s as [o m]. simpl in *.
    assert (this ≠ other) as Hne by congruence.
    pose proof (objects_well_formed _ Hc _ _ Hg) as Hw. simpl in Hw.
    shape Hw; simplify_eq/=.
    all: try (destruct (fits_small_nothrow T v Hs) as (w & r & Hm)).
    all: eexists; (split; [by go|]).
    all: tidy_maps.
    all: try (apply consistent_put; [apply consistent_put|..]; by eauto 6 with own).
    apply (consistent_transfer o m this other
             {| storage := heap_ptr a; desc := of_type T |} a); eauto with own.
  - (* copy assignment *)
    destruct Hv as [[[fs fd] Hf] [[gs gd] Hg]].
    destruct (decide (this = other)) as [->|Hne].
    { exists s. split; [|done]. simpl. by rewrite assign_copy_self_header2. }
    destruct s as [o m]. simpl in *.
    pose proof (objects_well_formed _ Hc _ _ Hf) as Hwf.
    pose proof (objects_well_formed _ Hc _ _ Hg) as Hwg. simpl in *.
    assert (separate {| storage := fs; desc := fd |} {| storage := gs; desc := gd |})
      as Hsep.
    { intros a Ha Hb. apply Hne. eapply (owners_distinct _ Hc); eauto. }
    shape Hwf; shape Hwg; simplify_eq/=.
    all: try (destruct (copy_ctor T v) as [e|v'] eqn:Hcp).
    all: try (destruct (copy_ctor T0 v0) as [e0|v0'] eqn:Hcp0).
    all: try (pose proof (fresh_ne _ _ _ Ha) as Hfr).
    all: try (pose proof (fresh_ne _ _ _ Ha0) as Hfr0).
    all: eexists; (split; [by go|]).
    all: tidy_maps; try done.
    all: try (apply consistent_put; by eauto with own).
    all: try (apply consistent_alloc; by eauto with own).
    all: try (eapply consistent_free; by eauto with own).
    all: eapply consistent_free_alloc; eauto with own.
  - (* move assignment *)
    destruct Hv as [[[fs fd] Hf] [[gs gd] Hg]].
    destruct (decide (this = other)) as [->|Hne].
    { exists s. split; [|done]. simpl. by rewrite assign_move_self_header2. }
    destruct s as [o m]. simpl in *.
    pose proof (objects_well_formed _ Hc _ _ Hf) as Hwf.
    pose proof (objects_well_formed _ Hc _ _ Hg) as Hwg. simpl in *.
    assert (separate {| storage := fs; desc := fd |} {| storage := gs; desc := gd |})
      as Hsep.
    { intros a Ha Hb. apply Hne. eapply (owners_distinct _ Hc); eauto. }
    shape Hwf; shape Hwg; simplify_eq/=.
    all: try (destruct (fits_small_nothrow T v Hs) as (w & r & Hm)).
    all: try (destruct (fits_small_nothrow T0 v0 Hs0) as (w0 & r0 & Hm0)).
    all: try (assert (a ≠ a0) by
                (intros ->; apply (Hsep a0); by apply owner_large)).
    all: eexists; (split; [by go|]).
    all: tidy_maps; try done.
    all: rewrite (insert_insert_ne _ this other) by done.
    all: try (apply consistent_put; [apply consistent_put|..]; by eauto 6 with own).
    all: try match goal with
             | Hg : _ !! ?q = Some ?g, Hf : _ !! ?p = Some _ |- _ =>
                 apply (consistent_transfer_flip _ _ p q g); by eauto with own
             end.
    all: try (apply consistent_put; [eapply consistent_free|..]; by eauto 6 with own).
    all: try match goal with
             | Hg : _ !! ?q = Some ?g, Hf : _ !! ?p = Some ?f |- _ =>
                 eapply (consistent_free_transfer _ _ p q f g); by eauto with own
             end.
  - (* destruction *)
    destruct Hv as [[fs fd] Hf]. destruct s as [o m]. simpl in *.
    pose proof (objects_well_formed _ Hc _ _ Hf) as Hw. simpl in Hw.
    shape Hw; simplify_eq/=.
    all: eexists; (split; [by go|]).
    all: tidy_maps.
    + apply consistent_remove; eauto with own.
    + apply consistent_remove; eauto with own.
    + rewrite <- (delete_insert_eq o this {| storage := heap_ptr a; desc := empty_func |}).
      apply consistent_remove; eauto with own.
      eapply consistent_free; eauto with own.
Qed.

Lemma reachable_header2_consistent s : reachable_header2 s → consistent s.
Proof.
  induction 1 as [|s o s' _ IH Hv Hf]; [apply boot_consistent|].
  destruct (step_consistent_header2 s o IH Hv) as (s'' & Hf' & Hc). congruence.
Qed.

(** The second draft of function.h owns large payloads as part_000 does: in
    every state reached from the empty machine by valid operations
    (completed or interrupted by an exception), containers bound to a large
    type point to live blocks, no block has two owners and every block has
    one, so destroying every container empties the free store; and no valid
    operation is undefined. *)
Theorem header2_exclusive_ownership s :
  reachable_header2 s →
  consistent s ∧
  (objects s = ∅ → memory s = ∅) ∧
  (∀ o, valid o s →
     ∃ s', final (exec_header2 o s) = Some s' ∧ reachable_header2 s').
Proof.
  intros Hr. pose proof (reachable_header2_consistent s Hr) as Hc.
  split; [done|]. split; [by apply consistent_no_leak|].
  intros o Hv. destruct (step_consistent_header2 s o Hc Hv) as (s' & Hf & _).
  exists s'. split; [done|]. by eapply reach2_step.
Qed.

End SecondDraft.

(** * Examples on the concrete program *)

Module Examples.
Import Sample.

Lemma sample_move_constructible T : MoveConstructible T.
Proof. intros v w r args [= <- _]. done. Qed.

Lemma sample_copy_constructible T : CopyConstructible T.
Proof.
  intros v v' args Hc. destruct T as [|[|[|[|T]]]]; simpl in Hc; by simplify_eq.
Qed.

Lemma demo_holds_large :
  holding (memory demo) {| storage := heap_ptr 1%positive; desc := of_type 1 |} 1 7%Z.
Proof. split; [done|]. exists 1%positive. done. Qed.

Lemma demo_reachable : reachable demo.
Proof.
  apply (reach_step _ (@FromValue sample 0 10 5%Z) _
           (reach_step _ (@FromValue sample 1 11 7%Z) _ reach_boot eq_refl eq_refl)).
  - done.
  - vm_compute. reflexivity.
Qed.

(** C1 fails on the first draft of function.h.  Container 10 holds "add 5"
    and answers 8 to the argument 3.  Copy-assigning container 13, whose
    payload's copy constructor throws, destroys the target's value and
    rebinds its descriptor before the copy is attempted: the exception
    leaves container 10 bound to type 3 over destroyed storage, and calling
    it afterwards is undefined.  part_000 leaves the machine unchanged. *)
Theorem header1_copy_assign_loses_target :
  (Header1.function_from 0 10 5%Z;; Header1.function_from 3 13 7%Z) boot
  = Normal tt fragile ∧
  observe (Header1.operator_call 10 3%Z fragile) = Returns 8%Z ∧
  Header1.assign_copy 10 13 fragile
  = Thrown (payload_exn 7)
      {| objects := <[10 := {| storage := indeterminate; desc := of_type 3 |}]>
                      (objects fragile);
         memory := memory fragile |} ∧
  observe ((try_catch (Header1.assign_copy 10 13) (λ _, mret tt);;
            Header1.operator_call 10 3%Z) fragile) = Undef ∧
  Part000.assign_copy 10 13 fragile = Thrown (payload_exn 7) fragile.
Proof. vm_compute. done. Qed.


(** C3 fails on the first draft of function.h.  Type 2 has 4 bytes and a
    move constructor that is not [noexcept], so [fits_small] classifies it
    as large and its descriptor reads the storage as a pointer; the
    constructor tests size and alignment only and places the value in the
    storage.  Calling or destroying the container is then undefined.
    part_000 tests [fits_small] and allocates. *)
Theorem header1_constructor_ignores_noexcept :
  fits_small 2 = false ∧
  ((sizeof 2%nat <? sizeof_storage)%N && (alignof_storage `mod` alignof 2%nat =? 0)%N) = true ∧
  Header1.function_from 2 10 5%Z boot
  = Normal tt {| objects := {[10 := {| storage := inline_obj 2 5%Z;
                                        desc := Header1.get_descriptor 2 |}]};
                 memory := ∅ |} ∧
  observe ((Header1.function_from 2 10 5%Z;; Header1.operator_call 10 3%Z) boot)
  = Undef ∧
  observe ((Header1.function_from 2 10 5%Z;; Header1.function_dtor 10) boot)
  = Undef ∧
  Part000.function_from 2 10 5%Z boot
  = Normal tt {| objects := {[10 := {| storage := heap_ptr 1%positive;
                                        desc := Part000.get_descriptor 2 |}]};
                 memory := {[1%positive := object 2 5%Z]} |} ∧
  observe ((Part000.function_from 2 10 5%Z;; Part000.operator_call 10 3%Z) boot)
  = Returns 8%Z.
Proof. vm_compute. done. Qed.

(** C4 fails on both drafts of function.h.  Moving the small payload
    "add 5": the second draft move-constructs into the destination and
    leaves the moved-from object (state 0) alive in the source; the first
    draft assigns the storage, so no move constructor runs and the source
    keeps its object.  Once the caller has rebound the source to the empty
    descriptor that object is never destroyed.  part_000 destroys it. *)
Theorem header_small_move_leaves_source_alive :
  fits_small 0 = true ∧
  move_ctor 0 5%Z = inr (5%Z, 0%Z) ∧
  move (Header2.descriptor 0) (inline_obj 0 5%Z) indeterminate ∅
  = Normal (inline_obj 0 0%Z, inline_obj 0 5%Z) ∅ ∧
  move (Header1.descriptor 0) (inline_obj 0 5%Z) indeterminate ∅
  = Normal (inline_obj 0 5%Z, inline_obj 0 5%Z) ∅ ∧
  move (Part000.descriptor 0) (inline_obj 0 5%Z) indeterminate ∅
  = Normal (indeterminate, inline_obj 0 5%Z) ∅ ∧
  (∃ s, Header2.function_move 12 10 demo = Normal tt s ∧
        objects s !! 10 = Some {| storage := inline_obj 0 0%Z; desc := empty_func |}) ∧
  (∃ s, Header1.function_move 12 10 demo = Normal tt s ∧
        objects s !! 10 = Some {| storage := inline_obj 0 5%Z; desc := empty_func |}) ∧
  (∃ s, Part000.function_move 12 10 demo = Normal tt s ∧
        objects s !! 10 = Some {| storage := indeterminate; desc := empty_func |}).
Proof.
  repeat split; try (vm_compute; done); eexists; (split; [vm_compute; reflexivity|]); done.
Qed.

(** C9 as stated fails on function.h: the empty descriptor's [copy] (and
    [move]) of both drafts overwrite the destination with the source, here
    an unset destination with a stale pointer. *)
Lemma header_empty_copy_overwrites :
  ¬ no_op_descriptor Header1.empty_func_descriptor ∧
  ¬ no_op_descriptor Header2.empty_func_descriptor.
Proof.
  split; intros Hn;
    destruct (Hn (heap_ptr 1%positive) indeterminate ∅) as [Hc _]; done.
Qed.


(** Witness for C2: in [demo], the large container 11 is moved into a new
    container 12 and into container 10. *)
Lemma move_empties_source_witness :
  (∃ s1, Part000.function_move 12 11 demo = Normal tt s1 ∧ moved demo s1 12 11) ∧
  (∀ f, objects demo !! 10 = Some f → well_formed (memory demo) f →
        separate f {| storage := heap_ptr 1%positive; desc := of_type 1 |} →
        ∃ s1, Part000.assign_move 10 11 demo = Normal tt s1 ∧ moved demo s1 10 11).
Proof.
  apply (move_empties_source demo 11 12 10
           {| storage := heap_ptr 1%positive; desc := of_type 1 |}).
  - done.
  - done.
  - reflexivity.
  - right. exists 1, 7%Z. exact demo_holds_large.
  - intros T _ _. apply sample_move_constructible.
Defined.

(** Witness for C5: container 11 of [demo] asked for type 1. *)
Lemma target_exact_witness :
  ∃ ptr, Part000.target 1 11 demo = Normal ptr demo ∧ ptr ≠ nullptr ∧
         peek 1 ptr demo = Normal 7%Z demo.
Proof.
  apply (target_exact demo 11
           {| storage := heap_ptr 1%positive; desc := of_type 1 |} 1 eq_refl).
  exact demo_holds_large.
Defined.

(** Witness for C7: container 11 of [demo] copied to 12. *)
Lemma copy_is_independent_witness :
  copy_independent Part000.function_copy Part000.operator_call Part000.target
    demo 12 11 {| storage := heap_ptr 1%positive; desc := of_type 1 |} 1 7%Z ∧
  copy_independent Header1.function_copy Header1.operator_call Header1.target
    demo 12 11 {| storage := heap_ptr 1%positive; desc := of_type 1 |} 1 7%Z.
Proof.
  apply (copy_is_independent demo 12 11 _ 1 7%Z 7%Z).
  - done.
  - reflexivity.
  - exact demo_holds_large.
  - reflexivity.
  - apply sample_copy_constructible.
Defined.

(** Witness for C8: [demo] is reachable. *)
Lemma exclusive_ownership_witness :
  consistent demo ∧ (objects demo = ∅ → memory demo = ∅).
Proof.
  destruct (exclusive_ownership demo demo_reachable) as (Hc & Hl & _).
  exact (conj Hc Hl).
Defined.

(** Witness for part_000's constructor from a value: a value of the large
    type 1 constructed at 12 in [demo]. *)
Lemma construct_places_by_classification_witness :
  ∃ s' f,
    Part000.function_from 1 12 7%Z demo = Normal tt s' ∧
    objects s' = <[12 := f]> (objects demo) ∧
    holding (memory s') f 1 7%Z ∧
    ∃ a, f = {| storage := heap_ptr a; desc := Part000.get_descriptor 1 |} ∧
         memory demo !! a = None ∧
         memory s' = <[a := object 1 7%Z]> (memory demo).
Proof.
  exact (proj2 (construct_places_by_classification 1 12 7%Z demo 7%Z 0%Z eq_refl)).
Defined.

(** Witness for part_000's move of a small payload: the small type 0. *)
Lemma small_move_constructs_then_destroys_witness :
  ∃ w r, move_ctor 0 5%Z = inr (w, r) ∧
         move (Part000.descriptor 0) (inline_obj 0 5%Z) indeterminate ∅
         = Normal (indeterminate, inline_obj 0 w) ∅.
Proof.
  exact (small_move_constructs_then_destroys 0 5%Z indeterminate ∅ eq_refl).
Defined.

(** Witness for part_000's copy assignment: in [fragile], assigning
    container 13, whose payload cannot be copied, to container 10. *)
Lemma copy_assign_commit_or_rollback_witness :
  ∃ e s', Part000.assign_copy 10 13 fragile = Thrown e s' ∧ s' = fragile.
Proof.
  exists (payload_exn 7), fragile. split; [vm_compute; reflexivity|].
  apply (copy_assign_commit_or_rollback fragile 10 13 (payload_exn 7) fragile).
  vm_compute. reflexivity.
Defined.

(** The scenario of the specification on part_000: a container made from
    "add 5" answers 8 to 3; its copy answers 15 to 10; once the original has
    been moved away, calling it throws [bad_function_call]. *)
Theorem adder_scenario :
  let original := Part000.function_from 0 10 5%Z in
  observe ((original;; Part000.operator_call 10 3%Z) boot) = Returns 8%Z ∧
  observe ((original;; Part000.function_copy 11 10;;
            Part000.operator_call 11 10%Z) boot) = Returns 15%Z ∧
  observe ((original;; Part000.function_copy 11 10;; Part000.function_move 12 10;;
            Part000.operator_call 10 3%Z) boot) = Raises bad_function_call.
Proof. vm_compute. done. Qed.

Lemma demo_reachable_header2 : reachable_header2 demo.
Proof.
  apply (reach2_step _ (@FromValue sample 0 10 5%Z) _
           (reach2_step _ (@FromValue sample 1 11 7%Z) _ reach2_boot eq_refl eq_refl)).
  - done.
  - vm_compute. reflexivity.
Qed.

Lemma demo_holds_small :
  holding (memory demo) {| storage := inline_obj 0 5%Z; desc := of_type 0 |} 0 5%Z.
Proof. done. Qed.

(** Witness: calling container 11 of [demo] with 3. *)
Lemma call_forwards_witness :
  Part000.operator_call 11 3%Z demo = Normal 10%Z demo.
Proof.
  exact (proj1 (proj2 (call_forwards demo 11
           {| storage := heap_ptr 1%positive; desc := of_type 1 |} 3%Z eq_refl))
         1 7%Z demo_holds_large).
Defined.

(** Witness: "add 5" constructed at 12 in [demo]. *)
Lemma construct_then_query_witness :
  ∃ s', Part000.function_from 0 12 5%Z demo = Normal tt s' ∧
        Part000.operator_bool 12 s' = Normal true s' ∧
        (∀ args, observe (Part000.operator_call 12 args s') = result (call_op 0 5%Z args)) ∧
        (∃ ptr, Part000.target 0 12 s' = Normal ptr s' ∧ ptr ≠ nullptr ∧
                peek 0 ptr s' = Normal 5%Z s') ∧
        (∀ T', T' ≠ 0 → Part000.target T' 12 s' = Normal nullptr s').
Proof. exact (construct_then_query 0 12 5%Z demo 5%Z 0%Z eq_refl). Defined.

(** Witness: copying container 13 of [fragile] to the free location 12. *)
Lemma failed_construction_leaves_no_trace_witness :
  ∃ e s', Part000.function_copy 12 13 fragile = Thrown e s' ∧ s' = fragile.
Proof.
  exists (payload_exn 7), fragile. split; [vm_compute; reflexivity|].
  apply (proj1 (proj2 (failed_construction_leaves_no_trace fragile 12 eq_refl))
           13 (payload_exn 7) fragile).
  vm_compute. reflexivity.
Defined.

(** Witness: container 11 of [demo] copy-assigned to container 10. *)
Lemma copy_assign_commits_witness :
  ∃ s1 f1, Part000.assign_copy 10 11 demo = Normal tt s1 ∧
           objects s1 = <[10 := f1]> (objects demo) ∧
           holding (memory s1) f1 1 7%Z ∧
           holding (memory s1) {| storage := heap_ptr 1%positive; desc := of_type 1 |} 1 7%Z ∧
           (∀ a, owner {| storage := inline_obj 0 5%Z; desc := of_type 0 |} = Some a →
                 memory s1 !! a = None) ∧
           (∀ args, observe (Part000.operator_call 10 args s1)
                    = result (call_op 1 7%Z args)).
Proof.
  refine (proj2 (copy_assign_commits demo 10 11
            {| storage := inline_obj 0 5%Z; desc := of_type 0 |}
            {| storage := heap_ptr 1%positive; desc := of_type 1 |}
            _ eq_refl eq_refl _ _) 1 7%Z 7%Z demo_holds_large eq_refl).
  - done.
  - right. exists 0, 5%Z. exact demo_holds_small.
  - intros a Ha. vm_compute in Ha. discriminate.
Defined.

(** Witness: in [fragile], container 13 copy-assigned to container 10 by
    the second draft of function.h. *)
Lemma header2_copy_assign_rolls_back_witness :
  ∃ e s', Header2.assign_copy 10 13 fragile = Thrown e s' ∧ s' = fragile.
Proof.
  exists (payload_exn 7), fragile. split; [vm_compute; reflexivity|].
  apply (header2_copy_assign_rolls_back fragile 10 13 (payload_exn 7) fragile).
  vm_compute. reflexivity.
Defined.

(** Witness: [demo] is reached by the second draft of function.h too. *)
Lemma header2_exclusive_ownership_witness :
  consistent demo ∧ (objects demo = ∅ → memory demo = ∅).
Proof.
  destruct (header2_exclusive_ownership demo demo_reachable_header2) as (Hc & Hl & _).
  exact (conj Hc Hl).
Defined.

(** Witness: container 10 of [demo] copied to 12, then moved to 13. *)
Lemma copy_then_move_round_trip_witness :
  observe ((Part000.function_copy 12 10;; Part000.function_move 13 12;;
            Part000.operator_call 13 3%Z) demo)
  = observe (Part000.operator_call 10 3%Z demo).
Proof.
  apply (@copy_then_move_round_trip sample demo 10 12 13
           (@Build_function sample (@inline_obj sample 0 5%Z) (of_type 0)) 0 5%Z 5%Z 3%Z).
  - done.
  - done.
  - done.
  - reflexivity.
  - exact demo_holds_small.
  - reflexivity.
  - apply sample_copy_constructible.
  - intros _. apply sample_move_constructible.
Defined.

(** Witness: destroying container 11 of [demo] with the first draft of
    function.h. *)
Lemma header1_never_releases_large_witness :
  Header1.function_dtor 11 demo
  = Normal tt {| objects := delete 11 (objects demo);
                 memory := <[1%positive := raw_memory]> (memory demo) |}.
Proof.
  exact (proj1 (@header1_never_releases_large sample demo 11 12 1 1%positive 7%Z
                  eq_refl ltac:(done) eq_refl eq_refl)).
Defined.

(** Witness: type 1 has 16 bytes. *)
Lemma pointer_sized_payload_is_large_witness :
  fits_small 1 = false.
Proof.
  exact (proj1 (@pointer_sized_payload_is_large sample 1 12 7%Z demo 7%Z 0%Z
                  ltac:(vm_compute; discriminate) eq_refl)).
Defined.

(** Witness: destroying the payload of container 11 of [demo] twice. *)
Lemma destroy_is_not_idempotent_witness :
  destroy (Part000.descriptor 1) (heap_ptr 1%positive) ∅ = Undefined.
Proof.
  exact (proj1 (@destroy_is_not_idempotent sample 1 (heap_ptr 1%positive) indeterminate
                  (memory demo) (heap_ptr 1%positive) ∅ eq_refl)).
Defined.

End Examples.
